(** * dwave-samplers: planar log-partition pipeline and steepest-descent seed check

    A shallow embedding of
      - [src/savanna/partition.py]   ([logsqrtdet], [log_partition_bqm]),
      - [src/dwave/samplers/greedy/sampler.py]
        (the seed validation of [SteepestDescentSolver.sample]),
    together with the pipeline stages of the [savanna] package that
    [partition.py] imports.

    Numbers.  The Python code computes in binary64.  A float is a value of
    [xfloat]: a finite float is the real number it denotes (the two zeros
    are one value), and [-inf], [+inf] and [nan] are constructors of their
    own, combined by the IEEE 754 rules for special values.  What numpy and
    scipy compute ([scipy.linalg.lu], [np.log], [np.sum]) is not in the
    sources: these routines are parameters, and a theorem that needs a fact
    about one of them has that fact as a hypothesis, so that it holds of the
    binary64 routines, whatever they round.  The weights, the offset and the
    entries of the Kasteleyn matrix are finite; their sums and the two
    subtractions of the return line are taken without rounding. *)

From HB Require Import structures.
From mathcomp Require Import boot finite_group algebra.
From Stdlib Require Import Reals ZArith Lia Lra String.
From Stdlib Require Import ClassicalEpsilon FunctionalExtensionality.

Set Implicit Arguments.
Unset Strict Implicit.
Unset Printing Implicit Defensive.

Delimit Scope R_scope with Re.
Delimit Scope ring_scope with R.

(** ** Real numbers as a MathComp field

    Finite matrix entries and weights are Stdlib reals.  The instances below
    make MathComp's matrices and determinants available on them. *)

Definition eqr (x y : R) : bool :=
  if Req_EM_T x y is left _ then true else false.

Fact eqrP : Equality.axiom eqr.
Proof. by move=> x y; rewrite /eqr; case: Req_EM_T => H; constructor. Qed.

HB.instance Definition _ := hasDecEq.Build R eqrP.

Definition pickR (P : pred R) (n : nat) : option R :=
  let x := epsilon (inhabits 0%Re) P in if P x then Some x else None.

Fact pickR_some (P : pred R) n x : pickR P n = Some x -> P x.
Proof. by rewrite /pickR; case: ifP => // Px [<-]. Qed.

Fact pickR_ex (P : pred R) : (exists x : R, P x) -> exists n, pickR P n.
Proof.
  move=> exP; exists 0%nat; rewrite /pickR.
  by rewrite (epsilon_spec (inhabits 0%Re) P exP).
Qed.

Fact pickR_ext (P Q : pred R) : P =1 Q -> pickR P =1 pickR Q.
Proof.
  move=> PQ n; rewrite /pickR.
  by have -> : P = Q by apply: functional_extensionality.
Qed.

HB.instance Definition _ := hasChoice.Build R pickR_some pickR_ex pickR_ext.

HB.instance Definition _ :=
  GRing.isZmodule.Build R
    (fun x y z => esym (Rplus_assoc x y z)) Rplus_comm Rplus_0_l Rplus_opp_l.

Fact RmulDl : left_distributive Rmult Rplus.
Proof. by move=> x y z; rewrite Rmult_plus_distr_r. Qed.

Fact R1_neq0 : R1 != R0.
Proof. by apply/eqP; exact: R1_neq_R0. Qed.

HB.instance Definition _ :=
  GRing.Zmodule_isComNzRing.Build R
    (fun x y z => esym (Rmult_assoc x y z)) Rmult_comm Rmult_1_l RmulDl R1_neq0.

Definition Rinvx (x : R) : R := if x != 0%Re then Rinv x else x.

Fact RmulVf (x : R) : x != 0%Re -> Rmult (Rinvx x) x = R1.
Proof. by move=> x0; rewrite /Rinvx x0; apply: Rinv_l; exact/eqP. Qed.

Fact Rinvx0 : Rinvx 0%Re = 0%Re.
Proof. by rewrite /Rinvx eqxx. Qed.

HB.instance Definition _ := GRing.ComNzRing_isField.Build R RmulVf Rinvx0.

Definition Rltb (x y : R) : bool :=
  if Rlt_dec x y is left _ then true else false.

(** ** The values of a float computation *)

Inductive xfloat : Type :=
| Fin (x : R)
| NegInf
| PosInf
| NaN.

Definition xneg (a : xfloat) : xfloat :=
  match a with
  | Fin x => Fin (- x)%Re
  | NegInf => PosInf
  | PosInf => NegInf
  | NaN => NaN
  end.

Definition xadd (a b : xfloat) : xfloat :=
  match a, b with
  | NaN, _ | _, NaN => NaN
  | Fin x, Fin y => Fin (x + y)%Re
  | PosInf, NegInf | NegInf, PosInf => NaN
  | PosInf, _ | _, PosInf => PosInf
  | NegInf, _ | _, NegInf => NegInf
  end.

Definition xsub (a b : xfloat) : xfloat := xadd a (xneg b).

(** The infinity of the sign of [x] times [inf]; [0 * inf] is [nan]. *)
Definition xscale_inf (x : R) (positive : bool) : xfloat :=
  if x == 0%Re then NaN
  else if Rltb 0 x == positive then PosInf else NegInf.

Definition xmul (a b : xfloat) : xfloat :=
  match a, b with
  | NaN, _ | _, NaN => NaN
  | Fin x, Fin y => Fin (x * y)%Re
  | Fin x, PosInf | PosInf, Fin x => xscale_inf x true
  | Fin x, NegInf | NegInf, Fin x => xscale_inf x false
  | PosInf, PosInf | NegInf, NegInf => PosInf
  | PosInf, NegInf | NegInf, PosInf => NegInf
  end.

(** [np.absolute] *)
Definition np_absolute (a : xfloat) : xfloat :=
  match a with
  | Fin x => Fin (Rabs x)
  | NegInf | PosInf => PosInf
  | NaN => NaN
  end.

Definition is_neginf (a : xfloat) : bool :=
  if a is NegInf then true else false.

(** ** Python results: a value or a raised exception *)

Inductive exn : Type :=
| ValueError (msg : string)
| TypeError (msg : string).

Inductive pyres (A : Type) : Type :=
| Ok (a : A)
| Raise (e : exn).

Arguments Ok {A} a.
Arguments Raise {A} e.

Definition pybind {A B : Type} (m : pyres A) (k : A -> pyres B) : pyres B :=
  match m with
  | Ok a => k a
  | Raise e => Raise e
  end.

Notation "x <~ m ;; k" := (pybind m (fun x => k))
  (at level 61, m at next level, right associativity).
Notation "m ;;; k" := (pybind m (fun _ => k))
  (at level 61, right associativity).

Definition is_ok {A : Type} (m : pyres A) : bool :=
  if m is Ok _ then true else false.

(** ** The seed check of [SteepestDescentSolver.sample] *)

Module Greedy.

(** The objects a caller can pass as [seed].  [PyBool] and [PyInt] are the
    instances of [numbers.Integral] (Python's [bool] is a subclass of
    [int]); the others are not. *)
Inductive pyobj : Type :=
| PyNone
| PyBool (b : bool)
| PyInt (z : Z)
| PyFloat (x : R)
| PyStr (s : string).

Definition is_None (v : pyobj) : bool :=
  if v is PyNone then true else false.

(** [isinstance(v, Integral)] *)
Definition isinstance_Integral (v : pyobj) : bool :=
  match v with
  | PyBool _ | PyInt _ => true
  | _ => false
  end.

(** The integer an [Integral] compares as ([True] is 1, [False] is 0). *)
Definition int_value (v : pyobj) : Z :=
  match v with
  | PyInt z => z
  | PyBool b => if b then 1%Z else 0%Z
  | _ => 0%Z
  end.

Definition seed_type_msg : string :=
  "'seed' should be None or a positive 32-bit integer".
Definition seed_range_msg : string :=
  "'seed' should be an integer between 0 and 2**32 - 1 inclusive".

(** sampler.py, lines 259-263. *)
Definition validate_seed (seed : pyobj) : pyres unit :=
  if ~~ (is_None seed || isinstance_Integral seed) then
    Raise (TypeError seed_type_msg)
  else if isinstance_Integral seed
          && ~~ ((0 <=? int_value seed)%Z && (int_value seed <=? 2 ^ 32 - 1)%Z)
  then Raise (ValueError seed_range_msg)
  else Ok tt.

Section Sample.

(** What [sample] takes from dimod, numpy and the C++ descent: the model
    type with its conversion to spins, the parsing of the initial states,
    and the descent with the packaging of its result. *)
Variables (model states sampleset : Type).
Variable to_spin : model -> model.
Variable parse_initial_states : model -> pyobj -> pyres states.
Variable descend : model -> states -> pyres sampleset.

(** sampler.py, lines 265-313: what runs once the seed is accepted. *)
Definition sample_tail (bqm : model) (seed : pyobj) : pyres sampleset :=
  parsed <~ parse_initial_states bqm seed ;;
  descend bqm parsed.

(** [SteepestDescentSolver.sample], as far as the seed decides it. *)
Definition sample (bqm : model) (seed : pyobj) : pyres sampleset :=
  let bqm := to_spin bqm in
  validate_seed seed ;;;
  sample_tail bqm seed.

End Sample.

End Greedy.

(** ** The data model: dimod models and networkx multigraphs *)

(** Variable labels (any hashable in Python) are natural numbers here. *)
Definition variable : Type := nat.

Inductive Vartype : Type := SPIN | BINARY.

(** [dimod.BinaryQuadraticModel]: a linear bias for every variable, a
    quadratic bias for some pairs, a constant. *)
Record BinaryQuadraticModel : Type := BQM {
  linear : seq (variable * R);
  quadratic : seq (variable * variable * R);
  offset : R;
  vartype : Vartype
}.

(** [len(bqm)]: the number of variables. *)
Definition bqm_len (bqm : BinaryQuadraticModel) : nat := size (linear bqm).

(** The coordinate map [pos]. *)
Definition posmap : Type := seq (variable * (R * R)).

(** An edge of a multigraph is [(u, v, key)]. *)
Definition edge_key : Type := (variable * variable * nat)%type.

(** An entry of the rotation of a vertex: the neighbour and the key of the
    edge that leads to it. *)
Definition half_edge : Type := (variable * nat)%type.

(** The attributes the pipeline puts on vertices and edges; an absent
    attribute is [None]. *)
Record node_data : Type := NodeData {
  rotation : option (seq half_edge)
}.

Record edge_data : Type := EdgeData {
  weight : option R;
  oriented : option bool;
  index : option nat
}.

(** [networkx.MultiGraph]: vertices and edges in insertion order, each with
    its attributes. *)
Record MultiGraph : Type := Graph {
  nodes : seq (variable * node_data);
  edges : seq (edge_key * edge_data)
}.

Definition order (G : MultiGraph) : nat := size (nodes G).

(** [G.edges(keys=True)] *)
Definition edge_keys (G : MultiGraph) : seq edge_key := [seq e.1 | e <- edges G].

(** In an undirected graph [(u, v, key)] and [(v, u, key)] name the same
    edge. *)
Definition same_edge (e1 e2 : edge_key) : bool :=
  let: (u1, v1, k1) := e1 in
  let: (u2, v2, k2) := e2 in
  (k1 == k2) && (((u1 == u2) && (v1 == v2)) || ((u1 == v2) && (v1 == u2))).

(** [G.edges[e]], where [e] is an edge of [G]. *)
Definition edge_lookup (G : MultiGraph) (e : edge_key) : option edge_data :=
  if [seq d <- edges G | same_edge d.1 e] is d :: _ then Some d.2 else None.

(** [G.edges[e].get('weight', 0.0)] *)
Definition get_weight (G : MultiGraph) (e : edge_key) : R :=
  if edge_lookup G e is Some d then odflt 0%Re (weight d) else 0%Re.

(** [nx.set_node_attributes(G, name='rotation', values=r)]: every vertex of
    [G] that is a key of [r] gets the attribute, the others are skipped. *)
Definition set_rotation (G : MultiGraph) (n : variable) (r : seq half_edge) :
    MultiGraph :=
  Graph [seq if d.1 == n then (d.1, NodeData (Some r)) else d | d <- nodes G]
        (edges G).

Definition set_node_attributes_rotation (G : MultiGraph)
    (values : seq (variable * seq half_edge)) : MultiGraph :=
  foldl (fun G nv => set_rotation G nv.1 nv.2) G values.

(** [nx.set_edge_attributes(G, name='oriented', values=orientation)] *)
Definition set_oriented (G : MultiGraph) (e : edge_key) (o : bool) : MultiGraph :=
  Graph (nodes G)
        [seq if same_edge d.1 e
             then (d.1, EdgeData (weight d.2) (Some o) (index d.2)) else d
        | d <- edges G].

Definition set_edge_attributes_oriented (G : MultiGraph)
    (values : seq (edge_key * bool)) : MultiGraph :=
  foldl (fun G ev => set_oriented G ev.1 ev.2) G values.

(** [nx.set_edge_attributes(G, name='index', values=indices)] *)
Definition set_index (G : MultiGraph) (e : edge_key) (i : nat) : MultiGraph :=
  Graph (nodes G)
        [seq if same_edge d.1 e
             then (d.1, EdgeData (weight d.2) (oriented d.2) (Some i)) else d
        | d <- edges G].

Definition set_edge_attributes_index (G : MultiGraph)
    (values : seq (edge_key * nat)) : MultiGraph :=
  foldl (fun G ev => set_index G ev.1 ev.2) G values.

(** [{edge: idx for idx, edge in enumerate(G.edges(keys=True))}] *)
Definition enumerate_edges (G : MultiGraph) : seq (edge_key * nat) :=
  zip (edge_keys G) (iota 0 (size (edges G))).

(** A square numpy array of finite floats. *)
Definition ndarray : Type := {n : nat & 'M[R]_n}.

(** ** The Python store

    The caller's model and coordinate map, and the graph the pipeline builds
    and then mutates in place, are objects of one store; a function receives
    references.  The state also records which imported stages have run. *)

Inductive pyobject : Type :=
| ObjBQM (bqm : BinaryQuadraticModel)
| ObjPos (pos : posmap)
| ObjGraph (G : MultiGraph).

Definition ref : Type := nat.

Inductive stage : Type :=
| Stage_bqm_to_multigraph
| Stage_rotation_from_coordinates
| Stage_plane_triangulate
| Stage_odd_edge_orientation
| Stage_kasteleyn
| Stage_lu.

Record pystate : Type := PyState {
  heap : seq pyobject;
  stages_run : seq stage
}.

Definition py (A : Type) : Type := pystate -> pyres A * pystate.

Definition ret {A : Type} (a : A) : py A := fun st => (Ok a, st).

Definition raise {A : Type} (e : exn) : py A := fun st => (Raise e, st).

Definition bind {A B : Type} (m : py A) (k : A -> py B) : py B :=
  fun st => match m st with
            | (Ok a, st') => k a st'
            | (Raise e, st') => (Raise e, st')
            end.

Declare Scope py_scope.
Delimit Scope py_scope with py.
Notation "x <-- m ;; k" := (bind m (fun x => k))
  (at level 61, m at next level, right associativity) : py_scope.
Notation "m >> k" := (bind m (fun _ => k))
  (at level 61, right associativity) : py_scope.

Definition deref (l : ref) : py (option pyobject) :=
  fun st => (Ok (List.nth_error (heap st) l), st).

Definition wrong_type {A : Type} : py A :=
  raise (TypeError "unexpected argument type").

Definition get_bqm (l : ref) : py BinaryQuadraticModel :=
  (o <-- deref l ;; if o is Some (ObjBQM b) then ret b else wrong_type)%py.

Definition get_pos (l : ref) : py posmap :=
  (o <-- deref l ;; if o is Some (ObjPos p) then ret p else wrong_type)%py.

Definition get_graph (l : ref) : py MultiGraph :=
  (o <-- deref l ;; if o is Some (ObjGraph g) then ret g else wrong_type)%py.

(** A new object, at a reference that no earlier object has. *)
Definition alloc (o : pyobject) : py ref :=
  fun st => (Ok (size (heap st)),
             PyState (rcons (heap st) o) (stages_run st)).

(** In-place update of the graph at [l]. *)
Definition update_graph (l : ref) (f : MultiGraph -> MultiGraph) : py unit :=
  (G <-- get_graph l ;;
   fun st => (Ok tt, PyState (set_nth (ObjGraph G) (heap st) l (ObjGraph (f G)))
                             (stages_run st)))%py.

Definition enter (s : stage) : py unit :=
  fun st => (Ok tt, PyState (heap st) (rcons (stages_run st) s)).

Local Open Scope ring_scope.

(** ** partition.py *)

(** What [partition.py] imports from [savanna], [scipy] and [numpy]. *)
Record imports : Type := Imports {
  bqm_to_multigraph : BinaryQuadraticModel -> MultiGraph * R;
  rotation_from_coordinates :
    MultiGraph -> posmap -> seq (variable * seq half_edge);
  plane_triangulate : MultiGraph -> MultiGraph;
  odd_edge_orientation : MultiGraph -> seq (edge_key * bool);
  kasteleyn : MultiGraph -> ndarray;
  (** [scipy.linalg.lu(K, permute_l=True)]: the pair [(PL, U)] as the
      routine computes it in binary64; an entry of a factor can be
      infinite or [nan] *)
  lu : forall n : nat, 'M[R]_n -> 'M[xfloat]_n * 'M[xfloat]_n;
  (** [np.log] on one float *)
  np_log : xfloat -> xfloat;
  (** [np.sum] of a one-dimensional array *)
  np_sum : seq xfloat -> xfloat
}.

(** Two facts of IEEE 754 arithmetic about these routines.  The logarithm
    of zero is [-inf].  A sum that has [-inf] among its terms is [-inf], or
    [nan] when it meets [+inf] or [nan] as well; it is never finite. *)
Definition log_of_zero (env : imports) : Prop :=
  np_log env (Fin 0) = NegInf.

Definition sum_with_neginf (env : imports) : Prop :=
  forall s : seq xfloat,
    has is_neginf s -> np_sum env s = NegInf \/ np_sum env s = NaN.

(** [np.diag(U)] *)
Definition np_diag (n : nat) (U : 'M[xfloat]_n) : seq xfloat :=
  [seq U i i | i <- enum 'I_n].

Section Partition.

Variable env : imports.

(** [logsqrtdet], partition.py lines 10-17.  The product by [.5] halves a
    finite float without rounding. *)
Definition logsqrtdet (K : ndarray) : pyres xfloat :=
  let: (PL, U) := lu env (projT2 K) in
  Ok (xmul (Fin (1 / 2)%Re)
           (np_sum env [seq np_log env (np_absolute u) | u <- np_diag U])).

(** The imported stages as they act on the store: the builder makes a new
    graph object, the triangulator changes its argument in place, the others
    return a value. *)
Definition call_bqm_to_multigraph (bqm : ref) : py (ref * R) :=
  (b <-- get_bqm bqm ;;
   enter Stage_bqm_to_multigraph >>
   let: (G, off) := bqm_to_multigraph env b in
   g <-- alloc (ObjGraph G) ;;
   ret (g, off))%py.

Definition call_rotation_from_coordinates (g pos : ref) :
    py (seq (variable * seq half_edge)) :=
  (G <-- get_graph g ;;
   p <-- get_pos pos ;;
   enter Stage_rotation_from_coordinates >>
   ret (rotation_from_coordinates env G p))%py.

Definition call_plane_triangulate (g : ref) : py unit :=
  (enter Stage_plane_triangulate >>
   update_graph g (plane_triangulate env))%py.

Definition call_odd_edge_orientation (g : ref) : py (seq (edge_key * bool)) :=
  (G <-- get_graph g ;;
   enter Stage_odd_edge_orientation >>
   ret (odd_edge_orientation env G))%py.

Definition call_kasteleyn (g : ref) : py ndarray :=
  (G <-- get_graph g ;;
   enter Stage_kasteleyn >>
   ret (kasteleyn env G))%py.

Definition call_logsqrtdet (K : ndarray) : py xfloat :=
  (enter Stage_lu >>
   fun st => (logsqrtdet K, st))%py.

(** [sum(G.edges[e].get('weight', 0.0) for e in G.edges(keys=True))] *)
Definition sum_weights (G : MultiGraph) : R :=
  foldl Rplus 0%Re [seq get_weight G e | e <- edge_keys G].

Definition too_few_variables : string :=
  "bqm must have at least three variables".

(** [log_partition_bqm], partition.py lines 20-45. *)
Definition log_partition_bqm (bqm pos : ref) : py xfloat :=
  (b <-- get_bqm bqm ;;
   if (bqm_len b < 3)%nat then raise (ValueError too_few_variables) else
   goff <-- call_bqm_to_multigraph bqm ;;
   let: (G, off) := goff in
   r <-- call_rotation_from_coordinates G pos ;;
   update_graph G (fun G => set_node_attributes_rotation G r) >>
   call_plane_triangulate G >>
   orientation <-- call_odd_edge_orientation G ;;
   update_graph G (fun G => set_edge_attributes_oriented G orientation) >>
   update_graph G (fun G => set_edge_attributes_index G (enumerate_edges G)) >>
   K <-- call_kasteleyn G ;;
   lsd <-- call_logsqrtdet K ;;
   Gf <-- get_graph G ;;
   ret (xsub (xsub lsd (Fin (sum_weights Gf))) (Fin off)))%py.

End Partition.

(** ** The Kasteleyn matrix *)

Module Kasteleyn.

(** The row and column of a vertex: its position among the vertices of
    [G]. *)
Definition vertex_index (G : MultiGraph) (v : variable) : option 'I_(order G) :=
  insub (seq.index v [seq d.1 | d <- nodes G]).

(** [K[i][j] = f(K[i][j])] *)
Definition update_entry (n : nat) (K : 'M[R]_n) (i j : 'I_n) (f : R -> R) :
    'M[R]_n :=
  \matrix_(a, b) (if (a == i) && (b == j) then f (K a b) else K a b).

(** One edge [(u, v, key)] of weight [w]: directed from [s] to [t], it
    adds [w] to [K[s][t]] and takes [w] from [K[t][s]].  The edge is
    directed from [v] to [u] when its [oriented] flag is [False], from [u]
    to [v] otherwise; an edge without weight counts as weight 0. *)
Definition kasteleyn_edge (G : MultiGraph) (K : 'M[R]_(order G))
    (e : edge_key * edge_data) : 'M[R]_(order G) :=
  let: ((u, v, _), d) := e in
  let w := odflt 0%Re (weight d) in
  let: (s, t) := if oriented d is Some false then (v, u) else (u, v) in
  match vertex_index G s, vertex_index G t with
  | Some i, Some j =>
      update_entry (update_entry K i j (fun x => x + w)%Re)
                   j i (fun x => x - w)%Re
  | _, _ => K
  end.

(** Modelled from the spec: [savanna.kasteleyn.kasteleyn] is imported by
    [partition.py] and is not among the sources.  Section 4.5: "For every
    edge with weight w oriented u->v, set K[u][v] += w, K[v][u] -= w
    (accumulate for parallel edges/multi-edges rather than overwrite)",
    starting from the zero matrix of size n x n, rows and columns in the
    order of the vertices. *)
Definition kasteleyn (G : MultiGraph) : 'M[R]_(order G) :=
  foldl (@kasteleyn_edge G) 0 (edges G).

End Kasteleyn.

(** Skew-symmetry, entry by entry. *)
Definition skew (n : nat) (K : 'M[R]_n) : Prop :=
  forall a b : 'I_n, K a b = - K b a.


(** ** Embeddings: rotation systems and faces *)

Module Planar.

(** A dart is an edge with a direction: tail, head, key. *)
Definition dart : Type := (variable * variable * nat)%type.

Definition tail_of (d : dart) : variable := d.1.1.
Definition head_of (d : dart) : variable := d.1.2.
Definition key_of (d : dart) : nat := d.2.

Definition rev_dart (d : dart) : dart := (head_of d, tail_of d, key_of d).

(** The two darts of every edge of [G]. *)
Definition darts (G : MultiGraph) : seq dart :=
  flatten [seq [:: e.1; rev_dart e.1] | e <- edges G].

(** The rotation stored at [v]: the half-edges around [v], in cyclic
    order. *)
Definition rotation_of (G : MultiGraph) (v : variable) : seq half_edge :=
  if [seq d <- nodes G | d.1 == v] is d :: _ then odflt [::] (rotation d.2)
  else [::].

(** Face tracing: after the dart [u -> v] comes the dart that leaves [v]
    along the half-edge that follows, in the rotation of [v], the half-edge
    back to [u]. *)
Definition next_dart (G : MultiGraph) (d : dart) : dart :=
  let r := rotation_of G (head_of d) in
  let back := (tail_of d, key_of d) in
  let h := nth back r ((seq.index back r).+1 %% size r) in
  (head_of d, h.1, h.2).

Fixpoint trace (G : MultiGraph) (d0 d : dart) (fuel : nat) : seq dart :=
  if fuel is fuel'.+1 then
    if d == d0 then [::] else d :: trace G d0 (next_dart G d) fuel'
  else [::].

(** The face to the side of [d0]: the darts met from [d0] until the
    tracing returns to [d0]. *)
Definition face_of (G : MultiGraph) (d0 : dart) : seq dart :=
  d0 :: trace G d0 (next_dart G d0) (size (darts G)).

(** All faces: every dart that is not on a face already traced starts a
    new one. *)
Definition faces (G : MultiGraph) : seq (seq dart) :=
  foldl (fun fs d => if has (fun f => d \in f) fs then fs
                     else rcons fs (face_of G d))
        [::] (darts G).

(** *** The triangulator *)

(** [G.new_edge_key(u, v)]: the number of edges between [u] and [v], or
    the first unused key after it. *)
Definition new_edge_key (G : MultiGraph) (u v : variable) : nat :=
  let used := [seq e.1.2 | e <- edges G & same_edge e.1 (u, v, e.1.2)] in
  head (size used) [seq k <- iota (size used) (size used).+1 | k \notin used].

(** [y] placed right after [x] in the rotation [r]. *)
Definition insert_after (x y : half_edge) (r : seq half_edge) : seq half_edge :=
  let i := (seq.index x r).+1 in take i r ++ y :: drop i r.

Definition insert_rotation (v : variable) (x y : half_edge)
    (d : variable * node_data) : variable * node_data :=
  if d.1 == v
  then (d.1, NodeData (Some (insert_after x y (odflt [::] (rotation d.2)))))
  else d.

(** A chord of weight 0 from [v0] to [vj], placed in the rotation of [v0]
    after the half-edge [prev0] and in the rotation of [vj] after the
    half-edge [prevj]. *)
Definition add_chord (G : MultiGraph) (v0 : variable) (prev0 : half_edge)
    (vj : variable) (prevj : half_edge) : MultiGraph :=
  let k := new_edge_key G v0 vj in
  Graph [seq insert_rotation vj prevj (v0, k)
               (insert_rotation v0 prev0 (vj, k) d) | d <- nodes G]
        (rcons (edges G) ((v0, vj, k), EdgeData (Some 0%Re) None None)).

(** [u] and [v] are joined by an edge of [G]. *)
Definition adjacent (G : MultiGraph) (u v : variable) : bool :=
  has (fun e : edge_key =>
         ((e.1.1 == u) && (e.1.2 == v)) || ((e.1.1 == v) && (e.1.2 == u)))
      (edge_keys G).

(** The corners of the face [f] that get a chord from its first corner:
    for every vertex on the boundary that is neither the vertex of the first
    corner nor one of its neighbours, the first corner at that vertex. *)
Definition chord_corners (G : MultiGraph) (f : seq dart) : seq nat :=
  let vs := [seq tail_of d | d <- f] in
  let v0 := head 0%nat vs in
  [seq j <- iota 0 (size f)
  | [&& nth 0%nat vs j != v0, ~~ adjacent G v0 (nth 0%nat vs j)
      & seq.index (nth 0%nat vs j) vs == j]].

(** The face, read from the first corner whose vertex has a non-adjacent
    vertex on the boundary; the face as it is when no corner has one. *)
Definition fan_start (G : MultiGraph) (f : seq dart) : seq dart :=
  rot (find (fun i => chord_corners G (rot i f) != [::]) (iota 0 (size f))) f.

(** The fan of a face with more than three darts, read as
    [d0, d1, ..., d(m-1)] from the corner [fan_start] chooses: a chord from
    the tail of [d0] to the tail of [dj] for every corner [j] of
    [chord_corners].  In the rotation of the tail of [d0] every chord goes
    right after the half-edge back along [d(m-1)]; in the rotation of the
    tail of [dj] it goes right after the half-edge back along [d(j-1)]: both
    ends of the chord lie in the face. *)
Definition fan (G : MultiGraph) (f : seq dart) : MultiGraph :=
  if (3 < size f)%nat then
    let f' := fan_start G f in
    let d0 := head (0, 0, 0)%nat f' in
    let dl := last d0 f' in
    foldl (fun G j =>
             let dj := nth d0 f' j in
             let dp := nth d0 f' j.-1 in
             add_chord G (tail_of d0) (tail_of dl, key_of dl)
                       (tail_of dj) (tail_of dp, key_of dp))
          G (chord_corners G f')
  else G.

(** The vertices that the edges and the rotations of [G] name. *)
Definition named (G : MultiGraph) : seq variable :=
  undup (flatten [seq [:: e.1.1; e.1.2] | e <- edge_keys G]
         ++ flatten [seq [seq h.1 | h <- odflt [::] (rotation d.2)]
                    | d <- nodes G]).

(** One walk over the faces of the embedding. *)
Definition triangulate_pass (G : MultiGraph) : MultiGraph :=
  foldl fan G (faces G).

(** The walk is repeated, over the faces of the graph as the chords have
    left it, until a walk adds no chord. *)
Fixpoint triangulate_passes (fuel : nat) (G : MultiGraph) : MultiGraph :=
  if fuel is fuel'.+1 then
    let G' := triangulate_pass G in
    if size (edges G') == size (edges G) then G
    else triangulate_passes fuel' G'
  else G.

(** Modelled from the spec: [savanna.planar.plane_triangulate] is imported
    by [partition.py] and is not among the sources.  Section 4.2: it
    "walks each face of the embedding" and, "for any face with more than
    three boundary edges, adds chords from one fixed vertex of the face to
    all non-adjacent vertices on that face's boundary", each chord of
    weight 0, and extends the rotation system as the chords are inserted;
    its output is "a maximal planar (triangulated) graph".  A face whose
    boundary meets a vertex more than once (the one face of a tree) is not
    triangulated by one walk; the faces its chords make are faces of the
    embedding in their turn, and the walk over the faces is repeated until
    it adds nothing.  Every walk that adds a chord joins two vertices that
    were not adjacent, so there are no more walks than pairs of vertices
    that the graph names. *)
Definition plane_triangulate (G : MultiGraph) : MultiGraph :=
  triangulate_passes (size (named G) * size (named G)).+1 G.

(** *** The orientation *)

(** Depth-first spanning tree over the vertices: the darts along which a
    vertex is first reached. *)
Definition out_darts (G : MultiGraph) (v : variable) : seq dart :=
  [seq d <- darts G | tail_of d == v].

Fixpoint tree_dfs (G : MultiGraph) (fuel : nat)
    (acc : seq variable * seq dart) (d : dart) : seq variable * seq dart :=
  if head_of d \in acc.1 then acc
  else if fuel is fuel'.+1 then
    foldl (tree_dfs G fuel') (head_of d :: acc.1, d :: acc.2) (out_darts G (head_of d))
  else acc.

Definition spanning_tree (G : MultiGraph) : seq dart :=
  if nodes G is d :: _ then
    (foldl (tree_dfs G (order G)) ([:: d.1], [::]) (out_darts G d.1)).2
  else [::].

Definition tree_edge (G : MultiGraph) (d : dart) : bool :=
  has (same_edge d) (spanning_tree G).

(** The face of a dart, by its position in the list of faces. *)
Definition face_index (fs : seq (seq dart)) (d : dart) : nat :=
  find (fun f => d \in f) fs.

(** Depth-first traversal of the faces, from one face to the face across
    an edge that is not in the spanning tree.  Every face is recorded when
    it is reached, with the dart on its boundary across which it was
    reached; the first face has none. *)
Fixpoint dual_dfs (G : MultiGraph) (fs : seq (seq dart)) (fuel : nat)
    (visited : seq (nat * option dart)) (x : nat * option dart) :
    seq (nat * option dart) :=
  if (x.1 \in [seq y.1 | y <- visited]) || (size fs <= x.1)%nat then visited
  else if fuel is fuel'.+1 then
    foldl (dual_dfs G fs fuel') (rcons visited x)
          [seq (face_index fs (rev_dart d), Some (rev_dart d))
          | d <- nth [::] fs x.1 & ~~ tree_edge G d]
  else visited.

Definition dual_order (G : MultiGraph) : seq (nat * option dart) :=
  dual_dfs G (faces G) (size (faces G)) [::] (0%nat, None).

(** An orientation gives every edge [(u, v, key)] a flag: [true] for the
    direction from [u] to [v], [false] for the direction from [v] to
    [u]. *)
Definition orientation : Type := seq (edge_key * bool).

(** The dart [d] runs in the direction that [o] gives its edge. *)
Definition agrees (o : orientation) (d : dart) : bool :=
  if [seq x <- o | same_edge x.1 d] is x :: _
  then x.2 == (tail_of d == x.1.1.1)
  else false.

(** The number of darts of the face [f] that run in the direction of their
    edge. *)
Definition agreeing (o : orientation) (f : seq dart) : nat :=
  count (agrees o) f.

Definition flip (o : orientation) (d : dart) : orientation :=
  [seq if same_edge x.1 d then (x.1, ~~ x.2) else x | x <- o].

(** A face reached across [d] gets an odd count by the direction of the
    edge of [d]. *)
Definition fix_face (fs : seq (seq dart)) (x : nat * option dart)
    (o : orientation) : orientation :=
  if x.2 is Some d then
    if odd (agreeing o (nth [::] fs x.1)) then o else flip o d
  else o.

(** Modelled from the spec: [savanna.planar.odd_edge_orientation] is
    imported by [partition.py] and is not among the sources.  Section 4.3:
    it "builds a spanning tree (e.g., depth-first) over the vertices,
    orients tree edges arbitrarily, then processes non-tree edges to
    satisfy the per-face odd-parity condition", going through the faces "in
    a traversal order derived from the rotation system (e.g., a DFS over
    the dual adjacency implied by shared edges) so each new edge
    orientation is determined from already-fixed neighbors".  Here every
    edge starts in the direction it is stored in, and the faces are taken
    from the last reached to the first: each fixes the edge across which
    it was reached. *)
Definition odd_edge_orientation (G : MultiGraph) : orientation :=
  foldr (fix_face (faces G)) [seq (e, true) | e <- edge_keys G] (dual_order G).

(** The parity condition of the spec: every face has an odd number of
    darts that run in the direction of their edge. *)
Definition kasteleyn_parity (G : MultiGraph) (o : orientation) : bool :=
  all (fun f => odd (agreeing o f)) (faces G).

End Planar.

(** ** The graph as the stages of [log_partition_bqm] leave it *)

Section FinalGraph.

Variable env : imports.

(** The graph as the stages leave it, from the builder's graph on. *)
Definition triangulated (G0 : MultiGraph) (pos : posmap) : MultiGraph :=
  plane_triangulate env
    (set_node_attributes_rotation G0 (rotation_from_coordinates env G0 pos)).

Definition with_orientation (T : MultiGraph) : MultiGraph :=
  set_edge_attributes_oriented T (odd_edge_orientation env T).

Definition with_index (G : MultiGraph) : MultiGraph :=
  set_edge_attributes_index G (enumerate_edges G).

Definition final_graph (G0 : MultiGraph) (pos : posmap) : MultiGraph :=
  with_index (with_orientation (triangulated G0 pos)).

Definition all_stages : seq stage :=
  [:: Stage_bqm_to_multigraph; Stage_rotation_from_coordinates;
      Stage_plane_triangulate; Stage_odd_edge_orientation;
      Stage_kasteleyn; Stage_lu].

End FinalGraph.

Import Planar.

(** ** What the traversal of the faces keeps true *)

Section Traversal.

Variable fs : seq (seq dart).

(** What the traversal guarantees of an entry [x], given the entries
    [before] it: its face was not reached before, and it is either the
    first face (no dart), or a face reached across a dart [d] of its own
    boundary whose reverse is on a face reached before. *)
Definition reached_ok (before : seq (nat * option dart))
    (x : nat * option dart) : Prop :=
  [/\ x.1 \notin [seq y.1 | y <- before],
      x.2 = None -> x.1 = 0%nat
    & forall d, x.2 = Some d ->
        d \in nth [::] fs x.1
        /\ exists2 y, y \in before & rev_dart d \in nth [::] fs y.1].

Fixpoint order_ok (before L : seq (nat * option dart)) : Prop :=
  if L is x :: L' then reached_ok before x /\ order_ok (rcons before x) L'
  else True.

(** What a call of [dual_dfs] may be given: a face not reached before
    comes with a dart of its boundary whose reverse is on a face already
    recorded. *)
Definition call_ok (visited : seq (nat * option dart))
    (x : nat * option dart) : Prop :=
  (x.2 = None -> x.1 = 0%nat)
  /\ forall d, x.2 = Some d ->
       ((x.1 < size fs)%nat -> d \in nth [::] fs x.1)
       /\ exists2 y, y \in visited & rev_dart d \in nth [::] fs y.1.


End Traversal.

(** The traced faces form an embedding: no dart is on two faces or twice
    on one, and every dart of a face is a dart of an edge of [G]. *)
Definition embedding_ok (G : MultiGraph) : bool :=
  uniq (flatten (faces G))
  && all (fun d => has (same_edge d) (edge_keys G)) (flatten (faces G)).

(** ** Examples *)

(** The triangle on the variables 0, 1, 2 placed at (0,0), (1,0), (0,1),
    every edge of weight 1, with the rotation system of that drawing
    (counterclockwise around every vertex). *)
Definition triangle : MultiGraph :=
  Graph [:: (0, NodeData (Some [:: (1, 0); (2, 0)]));
            (1, NodeData (Some [:: (2, 0); (0, 0)]));
            (2, NodeData (Some [:: (0, 0); (1, 0)]))]%nat
        [:: ((0, 1, 0)%nat, EdgeData (Some 1%Re) None None);
            ((1, 2, 0)%nat, EdgeData (Some 1%Re) None None);
            ((2, 0, 0)%nat, EdgeData (Some 1%Re) None None)].

(** The square 0, 1, 2, 3 placed at (0,0), (1,0), (1,1), (0,1). *)
Definition square : MultiGraph :=
  Graph [:: (0, NodeData (Some [:: (1, 0); (3, 0)]));
            (1, NodeData (Some [:: (2, 0); (0, 0)]));
            (2, NodeData (Some [:: (3, 0); (1, 0)]));
            (3, NodeData (Some [:: (0, 0); (2, 0)]))]%nat
        [:: ((0, 1, 0)%nat, EdgeData (Some 1%Re) None None);
            ((1, 2, 0)%nat, EdgeData (Some 1%Re) None None);
            ((2, 3, 0)%nat, EdgeData (Some 1%Re) None None);
            ((3, 0, 0)%nat, EdgeData (Some 1%Re) None None)].

(** The model of the test [test_NAE3SAT_bqm]: spins 0, 1, 2 (for a, b, c)
    with coupling +1 on every pair, and its positions. *)
Definition bqm_triangle : BinaryQuadraticModel :=
  BQM [:: (0%nat, 0%Re); (1%nat, 0%Re); (2%nat, 0%Re)]
      [:: (0, 1, 1%Re); (1, 2, 1%Re); (2, 0, 1%Re)]%nat 0%Re SPIN.

Definition pos_triangle : posmap :=
  [:: (0%nat, (0, 0)%Re); (1%nat, (1, 0)%Re); (2%nat, (0, 1)%Re)].

(** A model of two spins. *)
Definition bqm_pair : BinaryQuadraticModel :=
  BQM [:: (0%nat, 0%Re); (1%nat, 0%Re)] [:: (0, 1, 1%Re)]%nat 0%Re SPIN.

(** A builder for models without linear biases: the variables, an edge for
    every coupling with the coupling as its weight, the offset of the
    model. *)
Definition graph_of_couplings (bqm : BinaryQuadraticModel) : MultiGraph * R :=
  (Graph [seq (v.1, NodeData None) | v <- linear bqm]
         [seq ((q.1.1, q.1.2, 0%nat), EdgeData (Some q.2) None None)
         | q <- quadratic bqm],
   offset bqm).

(** The half-edges around every vertex in the order of the edges of the
    graph; for a vertex with at most two neighbours this is its rotation in
    any drawing. *)
Definition rotation_by_insertion (G : MultiGraph) (pos : posmap) :
    seq (variable * seq half_edge) :=
  [seq (d.1, [seq (head_of e, key_of e) | e <- out_darts G d.1])
  | d <- nodes G].

(** The star with centre 0 and leaves 1, 2, 3: a tree, whose one face
    meets the centre three times. *)
Definition star : MultiGraph :=
  Graph [:: (0, NodeData (Some [:: (1, 0); (2, 0); (3, 0)]));
            (1, NodeData (Some [:: (0, 0)]));
            (2, NodeData (Some [:: (0, 0)]));
            (3, NodeData (Some [:: (0, 0)]))]%nat
        [:: ((0, 1, 0)%nat, EdgeData (Some 1%Re) None None);
            ((0, 2, 0)%nat, EdgeData (Some 1%Re) None None);
            ((0, 3, 0)%nat, EdgeData (Some 1%Re) None None)].

(** Arithmetic for the examples, without rounding. *)

(** [log 0 = -inf]; the logarithm of a negative number is [nan]. *)
Definition exact_log (a : xfloat) : xfloat :=
  match a with
  | Fin x => if x == 0%Re then NegInf
             else if Rltb 0 x then Fin (ln x) else NaN
  | PosInf => PosInf
  | NegInf | NaN => NaN
  end.

(** A sum from left to right. *)
Definition exact_sum (s : seq xfloat) : xfloat := foldl xadd (Fin 0) s.

(** Elimination with row pivoting in exact arithmetic, for the examples:
    MathComp's [cormen_lup], which returns [(P, L, U)] with [P * K = L * U];
    on an upper triangular matrix there is nothing to eliminate, and the
    factors are the identity and the matrix itself. *)
Definition lu_cormen (n : nat) : 'M[R]_n -> 'M[R]_n * 'M[R]_n :=
  match n with
  | 0 => fun K => (1%:M, K)
  | n'.+1 => fun K => let: (P, L, U) := cormen_lup K in (P^T *m L, U)
  end.

Definition lu_upper_first (n : nat) (K : 'M[R]_n) : 'M[R]_n * 'M[R]_n :=
  if [forall i : 'I_n, forall j : 'I_n, (j < i)%nat ==> (K i j == 0)]
  then (1%:M, K) else lu_cormen K.

Definition lu_exact (n : nat) (K : 'M[R]_n) : 'M[xfloat]_n * 'M[xfloat]_n :=
  let: (PL, U) := lu_upper_first K in (map_mx Fin PL, map_mx Fin U).

(** An environment for the examples: the two stand-ins above for the
    builder and the rotation system, the triangulator, the orientation and
    the Kasteleyn matrix of this file, and arithmetic without rounding
    ([lu_exact], [exact_log], [exact_sum]). *)
Definition example_imports : imports :=
  Imports graph_of_couplings rotation_by_insertion
          Planar.plane_triangulate Planar.odd_edge_orientation
          (fun G => existT _ (order G) (Kasteleyn.kasteleyn G))
          lu_exact exact_log exact_sum.

Definition example_state : pystate :=
  PyState [:: ObjBQM bqm_triangle; ObjPos pos_triangle; ObjBQM bqm_pair] [::].

(** A spin assignment and its Ising energy: the offset, plus every linear
    bias times its spin, plus every coupling times its two spins. *)
Definition spin_value (up : bool) : R := if up then 1%Re else (-1)%Re.

Definition ising_energy (bqm : BinaryQuadraticModel)
    (sample : variable -> bool) : R :=
  (foldr (fun h acc => h.2 * spin_value (sample h.1) + acc) 0 (linear bqm)
   + foldr (fun q acc =>
              q.2 * spin_value (sample q.1.1) * spin_value (sample q.1.2) + acc)
           0 (quadratic bqm)
   + offset bqm)%Re.

Definition sample_of (a b c : bool) (v : variable) : bool :=
  match v with
  | 0%nat => a
  | 1%nat => b
  | _ => c
  end.

(** ** Further definitions *)

(** The edges of a graph are pairwise different: no two of them have the
    same key between the same two vertices. *)
Definition distinct_edges (G : MultiGraph) : bool :=
  pairwise (fun a b => ~~ same_edge a b) (edge_keys G).

(** What [set_index] does to one edge. *)
Definition index_step (d : edge_key * edge_data) (ev : edge_key * nat) :
    edge_key * edge_data :=
  if same_edge d.1 ev.1
  then (d.1, EdgeData (weight d.2) (oriented d.2) (Some ev.2)) else d.

(** The labels of the vertices, in the order of the rows. *)
Definition labels (G : MultiGraph) : seq variable := [seq d.1 | d <- nodes G].

(** Source and target of an edge under its [oriented] flag. *)
Definition directed (e : edge_key * edge_data) : variable * variable :=
  if oriented e.2 is Some false then (e.1.1.2, e.1.1.1) else (e.1.1.1, e.1.1.2).

(** What one edge puts at row [i], column [j]: its weight where it runs
    from the vertex of row [i] to the vertex of column [j], minus its weight
    where it runs the other way. *)
Definition edge_entry (G : MultiGraph) (e : edge_key * edge_data)
    (i j : 'I_(order G)) : R :=
  let w := odflt 0%Re (weight e.2) in
  let vi := nth 0%nat (labels G) i in
  let vj := nth 0%nat (labels G) j in
  ((if (vi == (directed e).1) && (vj == (directed e).2) then w else 0)
   - (if (vi == (directed e).2) && (vj == (directed e).1) then w else 0))%Re.

(** No edge joins a vertex to itself. *)
Definition loop_free (G : MultiGraph) : bool :=
  all (fun e : edge_key => e.1.1 != e.1.2) (edge_keys G).

(** The traced faces have every dart of the graph exactly once. *)
Definition faces_partition (G : MultiGraph) : bool :=
  perm_eq (flatten (faces G)) (darts G).

(** What [set_oriented] does to one edge. *)
Definition oriented_step (d : edge_key * edge_data) (ev : edge_key * bool) :
    edge_key * edge_data :=
  if same_edge d.1 ev.1
  then (d.1, EdgeData (weight d.2) (Some ev.2) (index d.2)) else d.

(** Edge attributes can be compared: they are a triple of optional
    values. *)
Definition edge_data_tuple (d : edge_data) : option R * option bool * option nat :=
  (weight d, oriented d, index d).

Definition tuple_edge_data (t : option R * option bool * option nat) : edge_data :=
  EdgeData t.1.1 t.1.2 t.2.

Fact edge_data_tupleK : cancel edge_data_tuple tuple_edge_data.
Proof. by case. Qed.

HB.instance Definition _ := Equality.copy edge_data (can_type edge_data_tupleK).

(** Two edges join the same two vertices. *)
Definition same_ends (a b : edge_key) : bool :=
  ((a.1.1 == b.1.1) && (a.1.2 == b.1.2))
  || ((a.1.1 == b.1.2) && (a.1.2 == b.1.1)).

(** A simple graph: no loop, and no two edges between the same two
    vertices. *)
Definition simple (G : MultiGraph) : bool :=
  loop_free G && pairwise (fun a b => ~~ same_ends a b) (edge_keys G).

(** [G'] has the vertices of [G] under the same labels and the edges of
    [G] followed by the chords [cs], all of weight 0; no two of its edges
    share a key where no two edges of [G] do; and it is simple where [G]
    is. *)
Definition adds_chords (G G' : MultiGraph) (cs : seq (edge_key * edge_data)) :
    Prop :=
  [/\ labels G' = labels G,
      edges G' = edges G ++ cs,
      all (fun c : edge_key * edge_data => weight c.2 == Some 0%Re) cs,
      distinct_edges G -> distinct_edges G'
    & simple G -> simple G'].

(** The dictionary that line 35 gets for the graph [T]. *)
Definition orientation_of (env : imports) (T : MultiGraph) :
    seq (edge_key * bool) :=
  let: Imports _ _ _ assign _ _ _ _ := env in assign T.

(** The environment of the examples, with the zero matrix of order three
    in the place of the Kasteleyn matrix. *)
Definition zero_imports : imports :=
  Imports graph_of_couplings rotation_by_insertion
          Planar.plane_triangulate Planar.odd_edge_orientation
          (fun _ => existT _ 3%nat (0 : 'M[R]_3))
          lu_exact exact_log exact_sum.

(** Every vertex that an edge or a rotation of [G] names is in [D]. *)
Definition names_within (D : seq variable) (G : MultiGraph) : bool :=
  all (fun e : edge_key => (e.1.1 \in D) && (e.1.2 \in D)) (edge_keys G)
  && all (fun d : variable * node_data =>
            all (fun h : half_edge => h.1 \in D) (odflt [::] (rotation d.2)))
         (nodes G).

(** Both ends of the dart are in [D]. *)
Definition ends_within (D : seq variable) (d : dart) : bool :=
  (tail_of d \in D) && (head_of d \in D).

(** The number of pairs of vertices of [D] that an edge of [G] joins. *)
Definition adjacent_pairs (D : seq variable) (G : MultiGraph) : nat :=
  count (fun p : variable * variable => adjacent G p.1 p.2)
        [seq (u, v) | u <- D, v <- D].

(** [G'] is [G] after some chords between vertices of [D]: it names no
    vertex outside [D], every chord has made a pair of [D] adjacent, and it
    is [G] itself when it has no more edges than [G]. *)
Definition grows (D : seq variable) (G G' : MultiGraph) : Prop :=
  [/\ names_within D G',
      (size (edges G) <= size (edges G'))%nat,
      (size (edges G') + adjacent_pairs D G
       <= adjacent_pairs D G' + size (edges G))%nat
    & size (edges G') = size (edges G) -> G' = G].

(** In a face of more than three darts any two different vertices of the
    boundary are adjacent: no chord can be added. *)
Definition saturated (G : MultiGraph) : bool :=
  all (fun f : seq dart =>
         (3 < size f)%nat ==>
         all (fun u => all (fun w => (u == w) || adjacent G u w)
                           [seq tail_of d | d <- f])
             [seq tail_of d | d <- f])
      (faces G).


(** * Properties *)

Section SampleSeed.

Variables (model states sampleset : Type).
Variable to_spin : model -> model.
Variable parse_initial_states : model -> Greedy.pyobj -> pyres states.
Variable descend : model -> states -> pyres sampleset.

Let sample := Greedy.sample to_spin parse_initial_states descend.
Let sample_tail := Greedy.sample_tail parse_initial_states descend.

(** C10.  [sample] raises [TypeError] when [seed] is neither [None] nor an
    [Integral]; it raises [ValueError] when [seed] is an [Integral] outside
    [0 .. 2^32 - 1]; and a seed that is [None] or an [Integral] inside that
    range passes the check, so that [sample] goes on with the rest of its
    body. *)
Theorem sample_seed_check (bqm : model) (seed : Greedy.pyobj) :
  (Greedy.is_None seed = false -> Greedy.isinstance_Integral seed = false ->
     sample bqm seed = Raise (TypeError Greedy.seed_type_msg))
  /\ (Greedy.isinstance_Integral seed = true ->
      ~ (0 <= Greedy.int_value seed <= 2 ^ 32 - 1)%Z ->
     sample bqm seed = Raise (ValueError Greedy.seed_range_msg))
  /\ (Greedy.is_None seed = true
      \/ (Greedy.isinstance_Integral seed = true
          /\ (0 <= Greedy.int_value seed <= 2 ^ 32 - 1)%Z) ->
     Greedy.validate_seed seed = Ok tt
     /\ sample bqm seed = sample_tail (to_spin bqm) seed).
Proof.
  rewrite /sample /sample_tail /Greedy.sample /Greedy.validate_seed.
  split; [|split].
  - by move=> -> ->.
  - move=> -> Hrange; rewrite orbT /=.
    case: Z.leb_spec => [H0|H0] /=; last by [].
    case: Z.leb_spec => [H1|H1] /=; last by [].
    by case: Hrange.
  - case=> [HN|[HI [H0 H1]]].
    + by case: seed HN.
    + rewrite HI orbT /=.
      move/Z.leb_le: H0 => ->; move/Z.leb_le: H1 => -> /=.
      by [].
Qed.

End SampleSeed.

(** [sample_seed_check] at a string, at [2^32], at [-1], at [None],
    at [True] and at the largest seed. *)
Lemma sample_seed_check_witness :
  let parse (_ : unit) (_ : Greedy.pyobj) := Ok tt in
  let descend (_ : unit) (_ : unit) := Ok 0%Z in
  let sample := Greedy.sample idfun parse descend tt in
  sample (Greedy.PyStr "seed") = Raise (TypeError Greedy.seed_type_msg)
  /\ sample (Greedy.PyInt (2 ^ 32)) = Raise (ValueError Greedy.seed_range_msg)
  /\ sample (Greedy.PyInt (-1)) = Raise (ValueError Greedy.seed_range_msg)
  /\ sample Greedy.PyNone = Ok 0%Z
  /\ sample (Greedy.PyBool true) = Ok 0%Z
  /\ sample (Greedy.PyInt (2 ^ 32 - 1)) = Ok 0%Z.
Proof.
  move=> parse descend sample.
  pose thm := @sample_seed_check unit unit Z idfun parse descend tt.
  split; first by apply: (proj1 (thm _)).
  split; first by apply: (proj1 (proj2 (thm _))) => //=; lia.
  split; first by apply: (proj1 (proj2 (thm _))) => //=; lia.
  split; first by rewrite /sample (proj2 (proj2 (proj2 (thm Greedy.PyNone)) _)) //; left.
  split.
  - rewrite /sample (proj2 (proj2 (proj2 (thm (Greedy.PyBool true))) _)) //.
    by right; split => //=; lia.
  - rewrite /sample (proj2 (proj2 (proj2 (thm (Greedy.PyInt (2 ^ 32 - 1)))) _)) //.
    by right; split => //=; lia.
Defined.

(** ** The store: running [log_partition_bqm] *)

Lemma logsqrtdet_ok (env : imports) (K : ndarray) : is_ok (logsqrtdet env K).
Proof. by rewrite /logsqrtdet; case: (lu _ _). Qed.


Lemma nth_error_rcons_size (T : Type) (s : seq T) (x : T) :
  List.nth_error (rcons s x) (size s) = Some x.
Proof. by elim: s => [|y s IH]. Qed.

Lemma nth_error_rcons_old (T : Type) (s : seq T) (x y : T) (l : nat) :
  List.nth_error s l = Some y -> List.nth_error (rcons s x) l = Some y.
Proof. by elim: s l => [|z s IH] [|l] //=; exact: IH. Qed.

Lemma set_nth_rcons_size (T : Type) (x0 : T) (s : seq T) (x y : T) :
  set_nth x0 (rcons s x) (size s) y = rcons s y.
Proof. by elim: s => [|z s IH] //=; rewrite IH. Qed.

Section Run.

Variable env : imports.

Lemma get_graph_new (h : seq pyobject) (tr : seq stage) (G : MultiGraph) :
  get_graph (size h) (PyState (rcons h (ObjGraph G)) tr)
  = (Ok G, PyState (rcons h (ObjGraph G)) tr).
Proof. by rewrite /get_graph /bind /deref /= nth_error_rcons_size. Qed.

Lemma update_graph_new (h : seq pyobject) (tr : seq stage) (G : MultiGraph)
    (f : MultiGraph -> MultiGraph) :
  update_graph (size h) f (PyState (rcons h (ObjGraph G)) tr)
  = (Ok tt, PyState (rcons h (ObjGraph (f G))) tr).
Proof.
  by rewrite /update_graph /bind get_graph_new /= set_nth_rcons_size.
Qed.

(** [log_partition_bqm] on a model with at least three variables: the
    builder makes the graph object; then either [pos] is not a coordinate
    map, or every stage runs once, in the order of the source, and only the
    new graph object changes. *)
Lemma log_partition_bqm_unfold (h : seq pyobject) (tr : seq stage)
    (lb lp : ref) (bqm : BinaryQuadraticModel) :
  List.nth_error h lb = Some (ObjBQM bqm) ->
  (3 <= bqm_len bqm)%nat ->
  let G0 := (bqm_to_multigraph env bqm).1 in
  let off := (bqm_to_multigraph env bqm).2 in
  log_partition_bqm env lb lp (PyState h tr)
  = if List.nth_error (rcons h (ObjGraph G0)) lp is Some (ObjPos pos) then
      let Gf := final_graph env G0 pos in
      (lsd <~ logsqrtdet env (kasteleyn env Gf) ;;
       Ok (xsub (xsub lsd (Fin (sum_weights Gf))) (Fin off)),
       PyState (rcons h (ObjGraph Gf)) (tr ++ all_stages))
    else
      (Raise (TypeError "unexpected argument type"),
       PyState (rcons h (ObjGraph G0)) (rcons tr Stage_bqm_to_multigraph)).
Proof.
  move=> Hb Hlen.
  rewrite /log_partition_bqm /bind /get_bqm /bind /deref /= Hb /= /ret.
  rewrite ltnNge Hlen /=.
  rewrite /call_bqm_to_multigraph /bind /get_bqm /bind /deref /= Hb /= /ret.
  case: (bqm_to_multigraph env bqm) => G0 off /=.
  rewrite /call_rotation_from_coordinates /bind get_graph_new.
  rewrite /get_pos /bind /deref /=.
  case: (List.nth_error _ lp) => [[b|pos|G]|] //=.
  rewrite /ret update_graph_new /call_plane_triangulate /bind /= update_graph_new.
  rewrite /call_odd_edge_orientation /bind get_graph_new /= !update_graph_new.
  rewrite /call_kasteleyn /bind get_graph_new /= /call_logsqrtdet /bind /=.
  rewrite -!cats1 -!catA /=.
  rewrite /final_graph /with_index /with_orientation /triangulated.
  case: (logsqrtdet env _) => [lsd|e] //=.
  by rewrite cats1 get_graph_new.
Qed.

(** The value returned on a model of at least three variables and a
    coordinate map. *)
Lemma log_partition_bqm_result (st : pystate) (lb lp : ref)
    (bqm : BinaryQuadraticModel) (pos : posmap) :
  List.nth_error (heap st) lb = Some (ObjBQM bqm) ->
  List.nth_error (heap st) lp = Some (ObjPos pos) ->
  (3 <= bqm_len bqm)%nat ->
  let Gf := final_graph env (bqm_to_multigraph env bqm).1 pos in
  (log_partition_bqm env lb lp st).1
  = (lsd <~ logsqrtdet env (kasteleyn env Gf) ;;
     Ok (xsub (xsub lsd (Fin (sum_weights Gf)))
              (Fin (bqm_to_multigraph env bqm).2))).
Proof.
  case: st => h tr /= Hb Hp Hlen.
  rewrite (log_partition_bqm_unfold tr lp Hb Hlen).
  by rewrite (nth_error_rcons_old _ Hp).
Qed.

End Run.

(** ** Darts and edges *)

Lemma rev_dartK : involutive rev_dart.
Proof. by case=> [[u v] k]. Qed.

Lemma same_edgeE (c d : dart) :
  same_edge c d = (c == d) || (c == rev_dart d).
Proof.
  case: c => [[u1 v1] k1]; case: d => [[u2 v2] k2].
  rewrite /same_edge /rev_dart /head_of /tail_of /key_of /= !xpair_eqE.
  by case: (k1 == k2); rewrite ?andbF ?andbT.
Qed.

Lemma same_edge_sym (c d : dart) : same_edge c d = same_edge d c.
Proof.
  rewrite !same_edgeE [d == c]eq_sym; congr (_ || _).
  by apply/eqP/eqP => [->|->]; rewrite rev_dartK.
Qed.


Lemma same_edge_refl (e : edge_key) : same_edge e e.
Proof. by rewrite same_edgeE eqxx. Qed.

(** ** Every edge is found under its own key *)

Lemma get_weight_in (pre es : seq (edge_key * edge_data))
    (ns : seq (variable * node_data)) :
  pairwise (fun a b => ~~ same_edge a b) [seq d.1 | d <- es] ->
  all (fun d => all (fun p => ~~ same_edge p.1 d.1) pre) es ->
  [seq get_weight (Graph ns (pre ++ es)) d.1 | d <- es]
  = [seq odflt 0%Re (weight d.2) | d <- es].
Proof.
  elim: es pre => [|d es IH] pre //= /andP [Hd Hes] /andP [Hpre Hall].
  congr (_ :: _).
  - rewrite /get_weight /edge_lookup /= filter_cat /=.
    have -> : [seq d0 <- pre | same_edge d0.1 d.1] = [::].
      elim: pre Hpre {IH Hall} => [|p pre IHp] //= /andP [Hp Hps].
      by rewrite (negbTE Hp) IHp.
    by rewrite /= same_edge_refl.
  - rewrite -cat_rcons; apply: IH => //.
    elim: es Hd Hall {Hes} => [|d' es IH] //= /andP [H1 H2] /andP [H3 H4].
    rewrite all_rcons /= H1 H3 /=.
    exact: IH.
Qed.

Lemma sum_weights_edges (G : MultiGraph) :
  distinct_edges G ->
  sum_weights G = foldl Rplus 0%Re [seq odflt 0%Re (weight d.2) | d <- edges G].
Proof.
  move=> Hd; rewrite /sum_weights /edge_keys -map_comp.
  case: G Hd => ns es /= Hd.
  rewrite -(@get_weight_in [::] es ns) //.
  by elim: es {Hd}.
Qed.

Section PartitionClaims.

Variable env : imports.

(** C4.  With fewer than three variables [log_partition_bqm] raises
    [ValueError] in the state it was called in: no graph has been built and
    no stage has run.  With three or more variables it does not raise a
    [ValueError]. *)
Theorem log_partition_bqm_too_few (st : pystate) (lb lp : ref)
    (bqm : BinaryQuadraticModel) :
  List.nth_error (heap st) lb = Some (ObjBQM bqm) ->
  ((bqm_len bqm < 3)%nat ->
     log_partition_bqm env lb lp st
     = (Raise (ValueError too_few_variables), st))
  /\ ((3 <= bqm_len bqm)%nat ->
      forall msg : string,
        (log_partition_bqm env lb lp st).1 <> Raise (ValueError msg)).
Proof.
  move=> Hb; split=> Hlen.
  - by rewrite /log_partition_bqm /bind /get_bqm /bind /deref /= Hb /= Hlen.
  - move=> msg; case: st Hb => h tr /= Hb.
    rewrite (log_partition_bqm_unfold env tr lp Hb Hlen).
    case: (List.nth_error _ lp) => [[b|pos|G]|] //=.
    have := logsqrtdet_ok env (kasteleyn env
              (final_graph env (bqm_to_multigraph env bqm).1 pos)).
    by case: (logsqrtdet env _).
Qed.


(** C9.  Every object that is in the store when [log_partition_bqm] is
    called, the caller's model and coordinate map among them, is in the
    store unchanged when it returns or raises: what is mutated is the graph
    object that the builder makes during the call. *)
Theorem log_partition_bqm_frame (st : pystate) (lb lp : ref)
    (l : ref) (o : pyobject) :
  List.nth_error (heap st) l = Some o ->
  List.nth_error (heap (log_partition_bqm env lb lp st).2) l = Some o.
Proof.
  case: st => h tr /= Hl.
  case Hb: (List.nth_error h lb) => [[bqm|p|G]|]; first last.
  all: try by rewrite /log_partition_bqm /bind /get_bqm /bind /deref /= Hb.
  case: (leqP 3 (bqm_len bqm)) => Hlen; last first.
    by rewrite /log_partition_bqm /bind /get_bqm /bind /deref /= Hb /= Hlen.
  rewrite (log_partition_bqm_unfold env tr lp Hb Hlen).
  by case: (List.nth_error _ lp) => [[b|pos|G]|] /=; exact: nth_error_rcons_old.
Qed.

End PartitionClaims.

Import GRing.Theory.

(** ** Real arithmetic seen through the ring operations *)

Lemma RoppE (x : R) : - x = Ropp x. Proof. by []. Qed.
Lemma R0E : (0%R : R) = R0. Proof. by []. Qed.
Lemma eqr_false (x y : R) : x <> y -> (x == y) = false.
Proof. by move=> H; apply/eqP. Qed.

Lemma RltbP (x y : R) : reflect (x < y)%Re (Rltb x y).
Proof. by rewrite /Rltb; case: Rlt_dec => H; constructor. Qed.

(** ** [logsqrtdet] never raises *)

Lemma half_neq0 : ((1 / 2)%Re == 0%Re) = false.
Proof. by apply: eqr_false => H; Lra.lra. Qed.

Lemma half_pos : Rltb 0 (1 / 2) = true.
Proof. by apply/RltbP; Lra.lra. Qed.

Lemma xmul_half (v : xfloat) :
  v = NegInf \/ v = NaN ->
  xmul (Fin (1 / 2)%Re) v = NegInf \/ xmul (Fin (1 / 2)%Re) v = NaN.
Proof.
  case=> ->; [left|by right].
  by rewrite /= /xscale_inf half_neq0 half_pos.
Qed.

(** The sum of the examples meets [sum_with_neginf]. *)
Lemma exact_sum_neginf (a : xfloat) (s : seq xfloat) :
  (a = NegInf \/ a = NaN) \/ has is_neginf s ->
  foldl xadd a s = NegInf \/ foldl xadd a s = NaN.
Proof.
  elim: s a => [|x s IH] a /=; first by case.
  case=> [[->|->]|/orP [Hx|Hs]]; apply: IH.
  - by left; case: x => [y| | |]; [left|left|right|right].
  - by left; right.
  - by left; case: x Hx => // _; case: a => [y| | |]; [left|left|right|right].
  - by right.
Qed.

Section LogSqrtDetClaims.

Variable env : imports.
Hypothesis log_zero : log_of_zero env.
Hypothesis sum_neginf : sum_with_neginf env.

Lemma zero_pivot_neginf (n : nat) (U : 'M[xfloat]_n) (i : 'I_n) :
  U i i = Fin 0 ->
  has is_neginf [seq np_log env (np_absolute u) | u <- np_diag U].
Proof.
  move=> Ui; rewrite /np_diag 2!has_map; apply/hasP; exists i.
    by rewrite mem_enum.
  by rewrite /= Ui /= Rabs_R0 log_zero.
Qed.

Lemma logsqrtdet_zero_pivot (n : nat) (K : 'M[R]_n) (v : xfloat) :
  logsqrtdet env (existT _ n K) = Ok v ->
  (exists i, (lu env K).2 i i = Fin 0) -> v = NegInf \/ v = NaN.
Proof.
  rewrite /logsqrtdet /=; case: (lu env K) => PL U /= [<-] [i Ui].
  apply: xmul_half; apply: sum_neginf.
  exact: zero_pivot_neginf Ui.
Qed.


End LogSqrtDetClaims.

Lemma lu_exact_upper (n : nat) (K : 'M[R]_n) :
  (forall i j : 'I_n, (j < i)%nat -> K i j = 0) ->
  lu_exact K = (map_mx Fin 1%:M, map_mx Fin K).
Proof.
  move=> HK; rewrite /lu_exact /lu_upper_first.
  have -> // : [forall i : 'I_n, forall j : 'I_n, (j < i)%nat ==> (K i j == 0)].
  apply/forallP => i; apply/forallP => j; apply/implyP => Hji.
  by rewrite HK.
Qed.


(** ** The Kasteleyn matrix is skew-symmetric *)

Lemma skew_update (n : nat) (K : 'M[R]_n) (i j : 'I_n) (w : R) :
  skew K ->
  skew (Kasteleyn.update_entry
          (Kasteleyn.update_entry K i j (fun x => x + w)%Re) j i
          (fun x => x - w)%Re).
Proof.
  move=> HK a b; rewrite !mxE (HK a b).
  by case: (a == i); case: (b == j); case: (a == j); case: (b == i) => /=;
     rewrite ?RoppE; Lra.lra.
Qed.

Lemma skew_kasteleyn_edge (G : MultiGraph) (K : 'M[R]_(order G))
    (e : edge_key * edge_data) :
  skew K -> skew (Kasteleyn.kasteleyn_edge K e).
Proof.
  case: e => [[[u v] k] d] HK; rewrite /Kasteleyn.kasteleyn_edge.
  case: (if oriented d is Some false then (v, u) else (u, v)) => s t.
  case: (Kasteleyn.vertex_index G s) => [i|] //.
  case: (Kasteleyn.vertex_index G t) => [j|] //.
  exact: skew_update.
Qed.

Lemma skew_diag (n : nat) (K : 'M[R]_n) (i : 'I_n) : skew K -> K i i = 0.
Proof. by move=> /(_ i i); rewrite RoppE R0E => H; Lra.lra. Qed.

Lemma skew_kasteleyn (G : MultiGraph) : skew (Kasteleyn.kasteleyn G).
Proof.
  rewrite /Kasteleyn.kasteleyn.
  have : skew (0 : 'M[R]_(order G)) by move=> a b; rewrite !mxE oppr0.
  elim: (edges G) (0 : 'M[R]_(order G)) => [|e s IH] K HK //=.
  by apply: IH; exact: skew_kasteleyn_edge.
Qed.

(** C5.  The Kasteleyn matrix of any graph is skew-symmetric:
    [K[i][j] = -K[j][i]] for all [i], [j], and [K[i][i] = 0]. *)
Theorem kasteleyn_skew_symmetric (G : MultiGraph) :
  (forall i j : 'I_(order G),
      Kasteleyn.kasteleyn G i j = - Kasteleyn.kasteleyn G j i)
  /\ (forall i : 'I_(order G), Kasteleyn.kasteleyn G i i = 0).
Proof.
  have Hskew := @skew_kasteleyn G.
  by split=> [|i] //; exact: skew_diag.
Qed.

(** ** Orientations under a flip *)

Lemma agrees_cons (x : edge_key * bool) (o : orientation) (c : dart) :
  agrees (x :: o) c
  = if same_edge x.1 c then x.2 == (tail_of c == x.1.1.1) else agrees o c.
Proof. by rewrite /agrees /=; case: ifP. Qed.



Lemma flip_keys (o : orientation) (d : dart) :
  [seq x.1 | x <- flip o d] = [seq x.1 | x <- o].
Proof. by rewrite /flip -map_comp; apply: eq_map => x /=; case: ifP. Qed.




(** ** Faces that share no dart *)





(** ** The order in which the faces are reached *)

Section DualOrder.

Variable fs : seq (seq dart).

Lemma order_ok_cat (before L1 L2 : seq (nat * option dart)) :
  order_ok fs before (L1 ++ L2)
  <-> order_ok fs before L1 /\ order_ok fs (before ++ L1) L2.
Proof.
  elim: L1 before => [|x L1 IH] before /=; first by rewrite cats0; tauto.
  by rewrite IH cat_rcons; tauto.
Qed.


Variable G : MultiGraph.

Lemma call_ok_cat (visited new : seq (nat * option dart))
    (x : nat * option dart) :
  call_ok fs visited x -> call_ok fs (visited ++ new) x.
Proof.
  case=> H0 H; split=> // d /H [Hd [y Hy Hr]]; split=> //.
  by exists y => //; rewrite mem_cat Hy.
Qed.

Lemma dual_dfs_children_ok (step : seq (nat * option dart) ->
                                    nat * option dart ->
                                    seq (nat * option dart))
    (cs visited : seq (nat * option dart)) :
  (forall vis x, order_ok fs [::] vis -> call_ok fs vis x ->
     exists new, step vis x = vis ++ new /\ order_ok fs [::] (vis ++ new)) ->
  order_ok fs [::] visited -> (forall c, c \in cs -> call_ok fs visited c) ->
  exists new, foldl step visited cs = visited ++ new
              /\ order_ok fs [::] (visited ++ new).
Proof.
  move=> Hstep; elim: cs visited => [|c cs IH] visited Hvis Hcs /=.
    by exists [::]; rewrite cats0.
  have [new1 [-> Hok1]] := Hstep visited c Hvis (Hcs c (mem_head c cs)).
  have Hcs1 : forall c', c' \in cs -> call_ok fs (visited ++ new1) c'.
    by move=> c' Hc'; apply: call_ok_cat; apply: Hcs; rewrite in_cons Hc' orbT.
  have [new2 [-> Hok2]] := IH (visited ++ new1) Hok1 Hcs1.
  by exists (new1 ++ new2); rewrite catA.
Qed.

Lemma dual_dfs_ok (fuel : nat) (visited : seq (nat * option dart))
    (x : nat * option dart) :
  order_ok fs [::] visited -> call_ok fs visited x ->
  exists new, dual_dfs G fs fuel visited x = visited ++ new
              /\ order_ok fs [::] (visited ++ new).
Proof.
  elim: fuel visited x => [|fuel IH] visited x Hvis Hx /=.
    by exists [::]; rewrite cats0; split=> //; case: ifP.
  case: ifP => [_|Hnew]; first by exists [::]; rewrite cats0.
  move/negbT: Hnew; rewrite negb_or -ltnNge => /andP [Hnotin Hlt].
  have Hvis1 : order_ok fs [::] (rcons visited x).
    rewrite -cats1; apply/order_ok_cat; split=> //=; split=> //.
    case: Hx => H0 Hd; split=> // d /Hd [Hin Hex]; split=> //.
    exact: Hin.
  set cs := [seq _ | d <- _ & _].
  have Hcs : forall c, c \in cs -> call_ok fs (rcons visited x) c.
    move=> c /mapP [d]; rewrite mem_filter => /andP [_ Hd] -> /=.
    split=> // d' [<-]; split.
      rewrite /face_index -has_find => Hhas.
      exact: (@nth_find _ [::] (fun f => rev_dart d \in f) fs Hhas).
    by exists x; rewrite ?mem_rcons ?mem_head // rev_dartK.
  have [new [-> Hok]] := dual_dfs_children_ok IH Hvis1 Hcs.
  by exists (x :: new); rewrite -cats1 -catA /= in Hok *.
Qed.

End DualOrder.

Lemma dual_order_ok (G : MultiGraph) : order_ok (faces G) [::] (dual_order G).
Proof.
  have Hcall : call_ok (faces G) [::] (0%nat, @None dart) by split.
  have [new [Heq]] := dual_dfs_ok G (size (faces G)) (I : order_ok _ [::] [::]) Hcall.
  by rewrite /dual_order Heq.
Qed.

(** ** The faces after the orientation pass *)

Section FixFaces.

Variable fs : seq (seq dart).
Hypothesis fs_uniq : uniq (flatten fs).

Lemma fix_face_keys (x : nat * option dart) (o : orientation) :
  [seq y.1 | y <- fix_face fs x o] = [seq y.1 | y <- o].
Proof.
  rewrite /fix_face; case: (x.2) => [d|] //.
  by case: ifP => // _; exact: flip_keys.
Qed.

Lemma fix_faces_keys (L : seq (nat * option dart)) (o : orientation) :
  [seq y.1 | y <- foldr (fix_face fs) o L] = [seq y.1 | y <- o].
Proof. by elim: L => [|x L IH] //=; rewrite fix_face_keys. Qed.

Lemma order_ok_root (before L : seq (nat * option dart))
    (x : nat * option dart) :
  order_ok fs before L -> x \in L -> x.2 = None -> x.1 = 0%nat.
Proof.
  elim: L before => [|y L IH] before //= [[_ Hy _] HL].
  by rewrite in_cons => /orP [/eqP ->|Hx] //; exact: (IH _ HL).
Qed.


End FixFaces.


(** ** Every dart agrees with its edge, or its reverse does *)

Lemma same_edge_rev (x d : dart) : same_edge x (rev_dart d) = same_edge x d.
Proof. by rewrite !same_edgeE rev_dartK orbC. Qed.

Lemma agrees_pair (o : orientation) (e : dart) :
  has (fun x => same_edge x.1 e) o -> tail_of e != head_of e ->
  (agrees o e + agrees o (rev_dart e) = 1)%nat.
Proof.
  rewrite /tail_of /head_of => Hhas Hloop; elim: o Hhas => [|x o IH] //=.
  rewrite !agrees_cons same_edge_rev.
  case Hx: (same_edge x.1 e) => /=; last exact: IH.
  move=> _; move: Hx; rewrite same_edgeE => /orP [] /eqP ->.
  - rewrite /rev_dart /tail_of /head_of /= eqxx [e.1.2 == _]eq_sym.
    by rewrite (negbTE Hloop); case: (x.2).
  - rewrite /rev_dart /tail_of /head_of /= eqxx (negbTE Hloop).
    by case: (x.2).
Qed.

Lemma count_agrees_darts (G : MultiGraph) (o : orientation) :
  loop_free G ->
  all (fun e => has (fun x => same_edge x.1 e) o) (edge_keys G) ->
  count (agrees o) (darts G) = size (edges G).
Proof.
  rewrite /loop_free /darts /edge_keys.
  elim: (edges G) => [|e es IH] //= /andP [He Hes] /andP [Hh Hhs].
  rewrite addnA [(agrees o e.1 + _)%nat](agrees_pair Hh) ?IH //.
Qed.

Lemma odd_sumn (s : seq nat) : all odd s -> odd (sumn s) = odd (size s).
Proof. by elim: s => [|x s IH] //= /andP [Hx /IH]; rewrite oddD Hx => ->. Qed.

Lemma faces_count_edges (G : MultiGraph) (o : orientation) :
  faces_partition G -> loop_free G ->
  all (fun e => has (fun x => same_edge x.1 e) o) (edge_keys G) ->
  sumn [seq agreeing o f | f <- faces G] = size (edges G).
Proof.
  move=> /seq.permP Hperm Hloop Hcov.
  by rewrite -(count_agrees_darts Hloop Hcov) -Hperm count_flatten.
Qed.

Lemma odd_edge_orientation_keys (G : MultiGraph) :
  [seq x.1 | x <- odd_edge_orientation G] = edge_keys G.
Proof.
  by rewrite /odd_edge_orientation fix_faces_keys -map_comp map_id_in.
Qed.



(** C7.  On a graph all of whose faces have three darts the triangulator
    returns the graph as it is: no edge is added, no attribute changes. *)
Theorem plane_triangulate_idempotent (G : MultiGraph) :
  all (fun f => size f == 3%nat) (faces G) ->
  plane_triangulate G = G.
Proof.
  move=> Hall.
  have Hpass : triangulate_pass G = G.
    rewrite /triangulate_pass.
    elim: (faces G) Hall => [|f fs IH] //= /andP [/eqP Hf Hfs].
    have -> : fan G f = G by rewrite /fan Hf.
    exact: IH.
  by rewrite /plane_triangulate /= Hpass eqxx.
Qed.

(** ** Examples: a triangle and a square *)

(** The triangle has two faces, the inner and the outer one, of three darts
    each. *)
Lemma faces_triangle :
  faces triangle
  = [:: [:: (0, 1, 0); (1, 2, 0); (2, 0, 0)];
        [:: (1, 0, 0); (0, 2, 0); (2, 1, 0)]]%nat.
Proof. by vm_compute. Qed.

(** The triangulator turns the star into a drawing of the complete graph on
    four vertices: three chords of weight 0 between the leaves, no loop, no
    second edge between two vertices, and four faces of three darts. *)
Lemma plane_triangulate_star :
  let T := plane_triangulate star in
  [/\ edges T = edges star
                ++ [:: ((1, 2, 0)%nat, EdgeData (Some 0%Re) None None);
                       ((1, 3, 0)%nat, EdgeData (Some 0%Re) None None);
                       ((2, 3, 0)%nat, EdgeData (Some 0%Re) None None)],
      [seq size f | f <- faces T] = [:: 3; 3; 3; 3]%nat,
      embedding_ok T
    & triangulate_pass T = T].
Proof. by split; vm_compute. Qed.

(** The triangulator turns the square into a drawing of the complete graph
    on four vertices: one chord of weight 0 in each of its two faces, the
    four edges of the square as they were, and four faces of three darts. *)
Lemma plane_triangulate_square :
  let T := plane_triangulate square in
  [/\ edges T = edges square
                ++ [:: ((0, 2, 0)%nat, EdgeData (Some 0%Re) None None);
                       ((1, 3, 0)%nat, EdgeData (Some 0%Re) None None)],
      [seq size f | f <- faces T] = [:: 3; 3; 3; 3]%nat
    & embedding_ok T].
Proof. by split; vm_compute. Qed.

(** [plane_triangulate_idempotent] on the triangle. *)
Lemma plane_triangulate_idempotent_witness :
  plane_triangulate triangle = triangle.
Proof. by apply: plane_triangulate_idempotent; vm_compute. Defined.

(** On the triangulated square every face gets an odd count, the first face
    included. *)
Lemma odd_edge_orientation_square :
  let T := plane_triangulate square in
  [seq agreeing (odd_edge_orientation T) f | f <- faces T]
  = [:: 3; 1; 1; 1]%nat.
Proof. by vm_compute. Qed.



(** No orientation of the three edges of the triangle meets the parity
    condition on both faces: the two counts add up to three. *)
Lemma triangle_no_orientation (b01 b12 b20 : bool) :
  kasteleyn_parity triangle
    [:: ((0, 1, 0)%nat, b01); ((1, 2, 0)%nat, b12); ((2, 0, 0)%nat, b20)]
  = false.
Proof. by case: b01; case: b12; case: b20; vm_compute. Qed.

(** ** Examples: the pipeline on the triangle *)

(** [log_partition_bqm_too_few] on the model of two spins and on the
    triangle. *)
Lemma log_partition_bqm_too_few_witness :
  log_partition_bqm example_imports 2 1 example_state
  = (Raise (ValueError too_few_variables), example_state)
  /\ forall msg : string,
       (log_partition_bqm example_imports 0 1 example_state).1
       <> Raise (ValueError msg).
Proof.
  split.
  - by apply: (proj1 (@log_partition_bqm_too_few example_imports example_state
                        2 1 bqm_pair erefl)).
  - by apply: (proj2 (@log_partition_bqm_too_few example_imports example_state
                        0 1 bqm_triangle erefl)).
Defined.


(** [log_partition_bqm_frame] on the triangle: the model and the
    coordinate map are where they were. *)
Lemma log_partition_bqm_frame_witness :
  let st' := (log_partition_bqm example_imports 0 1 example_state).2 in
  List.nth_error (heap st') 0 = Some (ObjBQM bqm_triangle)
  /\ List.nth_error (heap st') 1 = Some (ObjPos pos_triangle).
Proof.
  split.
  - exact: (@log_partition_bqm_frame example_imports example_state 0 1 0
              (ObjBQM bqm_triangle) erefl).
  - exact: (@log_partition_bqm_frame example_imports example_state 0 1 1
              (ObjPos pos_triangle) erefl).
Defined.


(** ** The attributes set after the triangulation leave the weights alone *)

Lemma get_weight_map (G : MultiGraph)
    (f : edge_key * edge_data -> edge_key * edge_data) (e : edge_key) :
  (forall d, (f d).1 = d.1 /\ weight (f d).2 = weight d.2) ->
  get_weight (Graph (nodes G) [seq f d | d <- edges G]) e = get_weight G e.
Proof.
  move=> Hf; rewrite /get_weight /edge_lookup /=.
  elim: (edges G) => [|d s IH] //=.
  have [Hk Hw] := Hf d; rewrite Hk.
  by case: (same_edge d.1 e); rewrite //= Hw.
Qed.

Lemma sum_weights_map (G : MultiGraph)
    (f : edge_key * edge_data -> edge_key * edge_data) :
  (forall d, (f d).1 = d.1 /\ weight (f d).2 = weight d.2) ->
  sum_weights (Graph (nodes G) [seq f d | d <- edges G]) = sum_weights G.
Proof.
  move=> Hf; rewrite /sum_weights /edge_keys /= -!map_comp.
  congr (foldl _ _ _); apply: eq_map => d /=.
  by rewrite (get_weight_map G _ Hf); case: (Hf d) => ->.
Qed.

Lemma sum_weights_set_oriented (G : MultiGraph)
    (values : seq (edge_key * bool)) :
  sum_weights (set_edge_attributes_oriented G values) = sum_weights G.
Proof.
  rewrite /set_edge_attributes_oriented.
  elim: values G => [|v vs IH] G //=; rewrite IH /set_oriented.
  by apply: sum_weights_map => d; case: ifP.
Qed.

Lemma sum_weights_set_index (G : MultiGraph) (values : seq (edge_key * nat)) :
  sum_weights (set_edge_attributes_index G values) = sum_weights G.
Proof.
  rewrite /set_edge_attributes_index.
  elim: values G => [|v vs IH] G //=; rewrite IH /set_index.
  by apply: sum_weights_map => d; case: ifP.
Qed.

(** The sum of the weights of the final graph is the sum of the weights of
    the triangulated graph. *)
Lemma sum_weights_final (env : imports) (G0 : MultiGraph) (pos : posmap) :
  sum_weights (final_graph env G0 pos) = sum_weights (triangulated env G0 pos).
Proof.
  by rewrite /final_graph /with_index /with_orientation
             sum_weights_set_index sum_weights_set_oriented.
Qed.

(** ** The ground states of the triangle *)

(** The assignment [{a: +1, b: -1, c: -1}] has energy -1, no assignment has
    less, and it is not the only one with that energy:
    [{a: -1, b: +1, c: +1}] is another. *)
Lemma triangle_ground_states :
  [/\ ising_energy bqm_triangle (sample_of true false false) = (-1)%Re,
      forall a b c : bool,
        (-1 <= ising_energy bqm_triangle (sample_of a b c))%Re
    & ising_energy bqm_triangle (sample_of false true true) = (-1)%Re].
Proof.
  split=> [||]; rewrite /ising_energy /spin_value /=; try Lra.lra.
  by move=> a b c; case: a; case: b; case: c; rewrite /=; Lra.lra.
Qed.

(** * Further properties *)

(** ** More on [log_partition_bqm] *)

Section PartitionMore.

Variable env : imports.

(** X5.  On a model of at least three variables and a coordinate map, the
    call runs every imported stage once, in the order of the source, and
    leaves one new object in the store: the final graph. *)
Theorem log_partition_bqm_effect (st : pystate) (lb lp : ref)
    (bqm : BinaryQuadraticModel) (pos : posmap) :
  List.nth_error (heap st) lb = Some (ObjBQM bqm) ->
  List.nth_error (heap st) lp = Some (ObjPos pos) ->
  (3 <= bqm_len bqm)%nat ->
  (log_partition_bqm env lb lp st).2
  = PyState (rcons (heap st)
               (ObjGraph (final_graph env (bqm_to_multigraph env bqm).1 pos)))
            (stages_run st
             ++ [:: Stage_bqm_to_multigraph; Stage_rotation_from_coordinates;
                    Stage_plane_triangulate; Stage_odd_edge_orientation;
                    Stage_kasteleyn; Stage_lu]).
Proof.
  case: st => h tr /= Hb Hp Hlen.
  rewrite (log_partition_bqm_unfold env tr lp Hb Hlen).
  by rewrite (nth_error_rcons_old _ Hp).
Qed.

(** X6.  When a pivot of the factor [U] computed for the Kasteleyn matrix
    is exactly zero, the call returns [-inf], or [nan]: it raises nothing,
    and the two subtractions of the return line change neither value. *)
Theorem log_partition_bqm_zero_pivot (st : pystate) (lb lp : ref)
    (bqm : BinaryQuadraticModel) (pos : posmap) (n : nat) (K : 'M[R]_n) :
  log_of_zero env -> sum_with_neginf env ->
  List.nth_error (heap st) lb = Some (ObjBQM bqm) ->
  List.nth_error (heap st) lp = Some (ObjPos pos) ->
  (3 <= bqm_len bqm)%nat ->
  kasteleyn env (final_graph env (bqm_to_multigraph env bqm).1 pos)
  = existT _ n K ->
  (exists i, (lu env K).2 i i = Fin 0) ->
  (log_partition_bqm env lb lp st).1 = Ok NegInf
  \/ (log_partition_bqm env lb lp st).1 = Ok NaN.
Proof.
  move=> Hlog Hsum Hb Hp Hlen HK Hpivot.
  rewrite (log_partition_bqm_result env Hb Hp Hlen) HK.
  have := logsqrtdet_ok env (existT _ n K).
  case Hv: (logsqrtdet env _) => [v|e] // _.
  by case: (logsqrtdet_zero_pivot Hlog Hsum Hv Hpivot) => ->; [left|right].
Qed.

End PartitionMore.

(** ** The attributes set on the edges *)

Lemma set_edge_attributes_index_edges (G : MultiGraph)
    (ps : seq (edge_key * nat)) :
  edges (set_edge_attributes_index G ps)
  = [seq foldl index_step d ps | d <- edges G].
Proof.
  rewrite /set_edge_attributes_index.
  elim: ps G => [|p ps IH] G /=; first by rewrite map_id.
  by rewrite IH /= -map_comp.
Qed.

Lemma foldl_index_step_other (d : edge_key * edge_data)
    (ps : seq (edge_key * nat)) :
  all (fun p => ~~ same_edge d.1 p.1) ps -> foldl index_step d ps = d.
Proof.
  elim: ps => [|p ps IH] //= /andP [Hp Hps].
  have -> : index_step d p = d by rewrite /index_step (negbTE Hp).
  exact: IH.
Qed.

Lemma index_edges_from (es : seq (edge_key * edge_data))
    (P : seq (edge_key * nat)) (k : nat) :
  pairwise (fun a b => ~~ same_edge a b) [seq d.1 | d <- es] ->
  all (fun d => all (fun p => ~~ same_edge d.1 p.1) P) es ->
  [seq foldl index_step d (P ++ zip [seq d.1 | d <- es] (iota k (size es)))
  | d <- es]
  = [seq (x.1.1, EdgeData (weight x.1.2) (oriented x.1.2) (Some x.2))
    | x <- zip es (iota k (size es))].
Proof.
  elim: es P k => [|d es IH] P k //= /andP [Hd Hes] /andP [HdP HesP].
  congr (_ :: _).
  - have Hrest : all (fun p : edge_key * nat => ~~ same_edge d.1 p.1)
                     (zip [seq d0.1 | d0 <- es] (iota k.+1 (size es))).
      apply/allP => p /(nthP (d.1, 0%nat)) [j].
      rewrite size_zip size_map size_iota minnn => Hj <-.
      rewrite nth_zip ?size_map ?size_iota //=.
      move/allP: Hd; apply; apply: mem_nth.
      by rewrite size_map.
    rewrite foldl_cat (foldl_index_step_other HdP) /=.
    have -> : index_step d (d.1, k)
              = (d.1, EdgeData (weight d.2) (oriented d.2) (Some k)).
      by rewrite /index_step /= same_edge_refl.
    exact: foldl_index_step_other.
  - have -> : P ++ (d.1, k) :: zip [seq d0.1 | d0 <- es] (iota k.+1 (size es))
            = rcons P (d.1, k) ++ zip [seq d0.1 | d0 <- es] (iota k.+1 (size es)).
      by rewrite cat_rcons.
    apply: IH => //.
    elim: es Hd HesP {Hes} => [|d' es IH] //= /andP [H1 H2] /andP [H3 H4].
    rewrite all_rcons /= H3 andbT same_edge_sym H1 /=.
    exact: IH.
Qed.

(** X8.  The index scheme of lines 39-40: in a graph whose edges are
    pairwise different, the edge at position [i] of [G.edges] gets the
    index [i], and neither its key, nor its weight, nor its orientation
    changes. *)
Theorem edge_index_scheme (G : MultiGraph) :
  distinct_edges G ->
  edges (set_edge_attributes_index G (enumerate_edges G))
  = [seq (x.1.1, EdgeData (weight x.1.2) (oriented x.1.2) (Some x.2))
    | x <- zip (edges G) (iota 0 (size (edges G)))].
Proof.
  move=> Hd; rewrite set_edge_attributes_index_edges /enumerate_edges.
  apply: (@index_edges_from (edges G) [::] 0) => //.
  by elim: (edges G).
Qed.

Lemma set_edge_attributes_oriented_keeps (G : MultiGraph)
    (values : seq (edge_key * bool)) :
  let G' := set_edge_attributes_oriented G values in
  [/\ nodes G' = nodes G,
      [seq (d.1, weight d.2, index d.2) | d <- edges G']
      = [seq (d.1, weight d.2, index d.2) | d <- edges G]
    & size (edges G') = size (edges G)].
Proof.
  rewrite /set_edge_attributes_oriented.
  elim: values G => [|v vs IH] G //=.
  have [-> -> ->] := IH (set_oriented G v.1 v.2).
  rewrite /set_oriented /= size_map -map_comp; split=> //.
  by apply: eq_map => d /=; case: ifP.
Qed.

Lemma set_edge_attributes_index_keeps (G : MultiGraph)
    (values : seq (edge_key * nat)) :
  let G' := set_edge_attributes_index G values in
  [/\ nodes G' = nodes G,
      [seq (d.1, weight d.2, oriented d.2) | d <- edges G']
      = [seq (d.1, weight d.2, oriented d.2) | d <- edges G]
    & size (edges G') = size (edges G)].
Proof.
  rewrite /set_edge_attributes_index.
  elim: values G => [|v vs IH] G //=.
  have [-> -> ->] := IH (set_index G v.1 v.2).
  rewrite /set_index /= size_map -map_comp; split=> //.
  by apply: eq_map => d /=; case: ifP.
Qed.

Lemma set_node_attributes_rotation_keeps (G : MultiGraph)
    (values : seq (variable * seq half_edge)) :
  let G' := set_node_attributes_rotation G values in
  edges G' = edges G /\ [seq d.1 | d <- nodes G'] = [seq d.1 | d <- nodes G].
Proof.
  rewrite /set_node_attributes_rotation.
  elim: values G => [|v vs IH] G //=.
  have [-> ->] := IH (set_rotation G v.1 v.2).
  rewrite /set_rotation /= -map_comp; split=> //.
  by apply: eq_map => d /=; case: ifP.
Qed.

(** X9.  The attributes that lines 36 and 40 set change nothing else: the
    final graph has the vertices of the triangulated graph with their
    attributes, the same edges in the same order with the same weights, and
    so the same sum of weights; and the rotation set at line 29 changes no
    edge and no vertex label. *)
Theorem final_graph_keeps (env : imports) (G0 : MultiGraph) (pos : posmap) :
  let R0 := set_node_attributes_rotation G0
              (rotation_from_coordinates env G0 pos) in
  let T := triangulated env G0 pos in
  let Gf := final_graph env G0 pos in
  [/\ edges R0 = edges G0 /\ [seq d.1 | d <- nodes R0] = [seq d.1 | d <- nodes G0],
      nodes Gf = nodes T,
      [seq (d.1, weight d.2) | d <- edges Gf]
      = [seq (d.1, weight d.2) | d <- edges T]
    & sum_weights Gf = sum_weights T].
Proof.
  move=> R0 T Gf; split.
  - exact: set_node_attributes_rotation_keeps.
  - rewrite /Gf /final_graph /with_index /with_orientation.
    set o := (X in set_edge_attributes_oriented T X).
    set Go := set_edge_attributes_oriented T o.
    have [-> _ _] := set_edge_attributes_index_keeps Go (enumerate_edges Go).
    by have [-> _ _] := set_edge_attributes_oriented_keeps T o.
  - rewrite /Gf /final_graph /with_index /with_orientation.
    set o := (X in set_edge_attributes_oriented T X).
    set Go := set_edge_attributes_oriented T o.
    have [_ Hi _] := set_edge_attributes_index_keeps Go (enumerate_edges Go).
    have [_ Ho _] := set_edge_attributes_oriented_keeps T o.
    have H1 := congr1 (map (fun x : edge_key * option R * option bool
                            => (x.1.1, x.1.2))) Hi.
    have H2 := congr1 (map (fun x : edge_key * option R * option nat
                            => (x.1.1, x.1.2))) Ho.
    by move: H1 H2; rewrite -!map_comp => -> ->.
  - exact: sum_weights_final.
Qed.

(** ** The seed as a 32-bit number *)

(** X10.  An integer seed passes the check exactly when it is its own low
    32 bits, that is, when it is an unsigned 32-bit number. *)
Theorem validate_seed_uint32 (z : Z) :
  Greedy.validate_seed (Greedy.PyInt z) = Ok tt
  <-> Z.land z (Z.ones 32) = z.
Proof.
  rewrite /Greedy.validate_seed /=.
  have -> : Z.land z (Z.ones 32) = (z mod 2 ^ 32)%Z by apply: Z.land_ones; lia.
  case: Z.leb_spec => [H0|H0] /=; last first.
    split=> // Hmod.
    have := Z.mod_pos_bound z (2 ^ 32) erefl.
    by rewrite Hmod; lia.
  case: Z.leb_spec => [H1|H1] /=.
    by split=> // _; apply: Z.mod_small; lia.
  split=> // Hmod.
  have := Z.mod_pos_bound z (2 ^ 32) erefl.
  by rewrite Hmod; lia.
Qed.

(** ** The sum of the weights *)

(** X11.  In a graph whose edges are pairwise different, every lookup
    [G.edges[e]] of line 45 finds the edge's own attributes, so the sum
    counts every edge once, parallel edges each on their own, and takes 0 for
    an edge without a ['weight'] attribute. *)
Theorem sum_weights_direct (G : MultiGraph) :
  distinct_edges G ->
  [seq get_weight G e | e <- edge_keys G]
  = [seq odflt 0%Re (weight d.2) | d <- edges G]
  /\ sum_weights G
     = foldl Rplus 0%Re [seq odflt 0%Re (weight d.2) | d <- edges G].
Proof.
  move=> Hd.
  have Hl : [seq get_weight G e | e <- edge_keys G]
            = [seq odflt 0%Re (weight d.2) | d <- edges G].
    rewrite /edge_keys -map_comp; case: G Hd => ns es /= Hd.
    rewrite -(@get_weight_in [::] es ns) //.
    by elim: es {Hd}.
  by split=> //; rewrite /sum_weights Hl.
Qed.

(** ** The entries of the Kasteleyn matrix *)

Lemma vertex_indexP (G : MultiGraph) (v : variable) (i : 'I_(order G)) :
  uniq (labels G) ->
  (nth 0%nat (labels G) i == v)
  = (if Kasteleyn.vertex_index G v is Some a then i == a else false).
Proof.
  move=> Hu; rewrite /Kasteleyn.vertex_index -/(labels G).
  have Hi : (i < size (labels G))%nat by rewrite size_map.
  case: insubP => [a Ha Hval|Hge].
  - rewrite -val_eqE /= Hval.
    apply/eqP/eqP => [<-|->]; first by rewrite index_uniq.
    by rewrite nth_index // -index_mem size_map.
  - apply/negbTE/negP => /eqP Hv; move: Hge.
    by rewrite -Hv index_uniq // ltn_ord.
Qed.

Lemma kasteleyn_edge_entry (G : MultiGraph) (K : 'M[R]_(order G))
    (e : edge_key * edge_data) (i j : 'I_(order G)) :
  uniq (labels G) ->
  Kasteleyn.kasteleyn_edge K e i j = (K i j + edge_entry e i j)%Re.
Proof.
  move=> Hu; rewrite /edge_entry !(vertex_indexP _ _ Hu).
  case: e => [[[u v] k] d]; rewrite /Kasteleyn.kasteleyn_edge /directed /=.
  case: (if oriented d is Some false then (v, u) else (u, v)) => s t /=.
  case: (Kasteleyn.vertex_index G s) => [a|]; last first.
    by rewrite /= andbF; Lra.lra.
  case: (Kasteleyn.vertex_index G t) => [b|]; last first.
    by rewrite /= andbF; Lra.lra.
  rewrite !mxE.
  by case: (i == a); case: (j == b); case: (i == b); case: (j == a) => /=;
     Lra.lra.
Qed.

(** X12.  The Kasteleyn matrix entry by entry, in a graph whose vertices
    have different labels: the entry at row [i], column [j] is the sum, over
    all the edges, of the weight of the edges that run from the vertex of row
    [i] to the vertex of column [j], minus the weights of those that run
    the other way.  Parallel edges add up; an edge without weight, or of
    weight 0, adds nothing. *)
Theorem kasteleyn_entries (G : MultiGraph) (i j : 'I_(order G)) :
  uniq (labels G) ->
  Kasteleyn.kasteleyn G i j = \sum_(e <- edges G) edge_entry e i j.
Proof.
  move=> Hu; rewrite /Kasteleyn.kasteleyn.
  have -> : \sum_(e <- edges G) edge_entry e i j
            = (0 : 'M[R]_(order G)) i j + \sum_(e <- edges G) edge_entry e i j.
    by rewrite mxE add0r.
  elim: (edges G) (0 : 'M[R]_(order G)) => [|e es IH] K /=.
    by rewrite big_nil addr0.
  by rewrite IH kasteleyn_edge_entry // big_cons addrA.
Qed.

(** ** What the orientation assigner returns *)

(** X13.  The orientation assigner returns one flag for every edge, in the
    order of [G.edges].  When the faces have every dart once and no edge is
    a loop, the counts of all the faces add up to the number of edges; so
    the assigner can meet the parity condition on every face only in a
    graph whose numbers of edges and of faces are both odd or both even. *)
Theorem odd_edge_orientation_counts (G : MultiGraph) :
  faces_partition G -> loop_free G ->
  [/\ [seq x.1 | x <- odd_edge_orientation G] = edge_keys G,
      sumn [seq agreeing (odd_edge_orientation G) f | f <- faces G]
      = size (edges G)
    & kasteleyn_parity G (odd_edge_orientation G) ->
      odd (size (edges G)) = odd (size (faces G))].
Proof.
  move=> Hperm Hloop.
  have Hkeys := odd_edge_orientation_keys G.
  have Hcov : all (fun e => has (fun x => same_edge x.1 e)
                              (odd_edge_orientation G)) (edge_keys G).
    apply/allP => e He.
    have -> : has (fun x : edge_key * bool => same_edge x.1 e)
                  (odd_edge_orientation G)
              = has (fun k => same_edge k e)
                    [seq x.1 | x <- odd_edge_orientation G].
      by rewrite has_map.
    by rewrite Hkeys; apply/hasP; exists e => //; exact: same_edge_refl.
  have Hsum := faces_count_edges Hperm Hloop Hcov.
  split=> // Hpar.
  by rewrite -Hsum odd_sumn ?size_map // all_map.
Qed.

(** ** The flags on the edges after line 36 *)

Lemma set_edge_attributes_oriented_edges (G : MultiGraph)
    (vs : seq (edge_key * bool)) :
  edges (set_edge_attributes_oriented G vs)
  = [seq foldl oriented_step d vs | d <- edges G].
Proof.
  rewrite /set_edge_attributes_oriented.
  elim: vs G => [|v vs IH] G /=; first by rewrite map_id.
  by rewrite IH /= -map_comp.
Qed.

Lemma foldl_oriented_step_other (d : edge_key * edge_data)
    (vs : seq (edge_key * bool)) :
  all (fun v => ~~ same_edge d.1 v.1) vs -> foldl oriented_step d vs = d.
Proof.
  elim: vs => [|v vs IH] //= /andP [Hv Hvs].
  have -> : oriented_step d v = d by rewrite /oriented_step (negbTE Hv).
  exact: IH.
Qed.

Lemma oriented_edges_from (es : seq (edge_key * edge_data))
    (P vs : seq (edge_key * bool)) :
  pairwise (fun a b => ~~ same_edge a b) [seq d.1 | d <- es] ->
  all (fun d => all (fun p => ~~ same_edge d.1 p.1) P) es ->
  [seq v.1 | v <- vs] = [seq d.1 | d <- es] ->
  [seq foldl oriented_step d (P ++ vs) | d <- es]
  = [seq (x.1.1, EdgeData (weight x.1.2) (Some x.2.2) (index x.1.2))
    | x <- zip es vs].
Proof.
  elim: es P vs => [|d es IH] P [|v vs] //= /andP [Hd Hes] /andP [HdP HesP].
  case=> Hv Hvs; congr (_ :: _).
  - have Hrest : all (fun p : edge_key * bool => ~~ same_edge d.1 p.1) vs.
      have -> : all (fun p : edge_key * bool => ~~ same_edge d.1 p.1) vs
                = all (fun k => ~~ same_edge d.1 k) [seq v0.1 | v0 <- vs].
        by rewrite all_map.
      by rewrite Hvs.
    rewrite foldl_cat (foldl_oriented_step_other HdP) /=.
    have -> : oriented_step d v
              = (d.1, EdgeData (weight d.2) (Some v.2) (index d.2)).
      by rewrite /oriented_step Hv same_edge_refl.
    exact: foldl_oriented_step_other.
  - rewrite -cat_rcons; apply: IH => //.
    elim: es Hd HesP {Hes Hvs} => [|d' es IH] //= /andP [H1 H2] /andP [H3 H4].
    rewrite all_rcons /= H3 andbT Hv same_edge_sym H1 /=.
    exact: IH.
Qed.

(** X14.  Line 36 on a dictionary that has one flag for every edge, in the
    order of [G.edges], in a graph whose edges are pairwise different: every
    edge gets its own flag, and neither its key, nor its weight, nor its
    index changes. *)
Theorem edge_orientation_flags (G : MultiGraph) (vs : seq (edge_key * bool)) :
  distinct_edges G ->
  [seq v.1 | v <- vs] = edge_keys G ->
  edges (set_edge_attributes_oriented G vs)
  = [seq (x.1.1, EdgeData (weight x.1.2) (Some x.2.2) (index x.1.2))
    | x <- zip (edges G) vs].
Proof.
  move=> Hd Hvs; rewrite set_edge_attributes_oriented_edges.
  apply: (@oriented_edges_from (edges G) [::] vs) => //.
  by elim: (edges G).
Qed.

(** ** The faces and the traversal *)

Lemma faces_step_mono (G : MultiGraph) (ds : seq dart) (fs : seq (seq dart))
    (d : dart) :
  has (fun f => d \in f) fs ->
  has (fun f => d \in f)
      (foldl (fun fs d => if has (fun f => d \in f) fs then fs
                          else rcons fs (face_of G d)) fs ds).
Proof.
  elim: ds fs => [|d' ds IH] fs //= Hd; apply: IH.
  by case: ifP => // _; rewrite has_rcons Hd orbT.
Qed.

(** X15.  Every dart of the graph is on one of the traced faces. *)
Theorem faces_cover_darts (G : MultiGraph) :
  all (fun d => has (fun f => d \in f) (faces G)) (darts G).
Proof.
  rewrite /faces; elim: (darts G) [::] => [|d ds IH] fs //=.
  rewrite IH andbT; apply: faces_step_mono.
  case: ifP => // _; rewrite has_rcons /face_of.
  by rewrite mem_head.
Qed.

Lemma order_ok_uniq (fs : seq (seq dart))
    (before L : seq (nat * option dart)) :
  order_ok fs before L -> uniq [seq y.1 | y <- before] ->
  uniq [seq y.1 | y <- before ++ L].
Proof.
  elim: L before => [|x L IH] before /=; first by rewrite cats0.
  case=> [[Hx _ _] HL] Hu; rewrite -cat_rcons; apply: IH => //.
  by rewrite map_rcons rcons_uniq Hx.
Qed.

(** X16.  The traversal of the faces reaches no face twice, and the first
    entry it records, if any, is the first face, with no dart. *)
Theorem dual_order_uniq (G : MultiGraph) :
  uniq [seq x.1 | x <- dual_order G]
  /\ (forall x, x \in dual_order G -> x.2 = None -> x.1 = 0%nat)
  /\ (faces G != [::] -> ohead (dual_order G) = Some (0%nat, None)).
Proof.
  have Hok := dual_order_ok G; split; last split.
  - exact: (@order_ok_uniq (faces G) [::] _ Hok).
  - by move=> x; exact: order_ok_root Hok.
  - rewrite /dual_order -size_eq0 -lt0n.
    move: (faces G) => fs Hsz.
    case Hfuel: (size fs) Hsz => [|n] // _ /=.
    rewrite Hfuel /=.
    set cs := [seq _ | d <- _ & _].
    have Hcall : forall c, c \in cs -> call_ok fs [:: (0%nat, None)] c.
      move=> c /mapP [d]; rewrite mem_filter => /andP [_ Hd] -> /=.
      split=> // d' [<-]; split.
        rewrite /face_index -has_find => Hhas.
        exact: (@nth_find _ [::] (fun f0 => rev_dart d \in f0) fs Hhas).
      by exists (0%nat, None); rewrite ?mem_head // rev_dartK.
    have Hstep := @dual_dfs_ok fs G n.
    have H0 : order_ok fs [::] [:: (0%nat, @None dart)] by [].
    have [new [-> _]] := dual_dfs_children_ok Hstep H0 Hcall.
    by [].
Qed.

(** ** What the triangulator adds *)

Lemma new_edge_key_fresh (G : MultiGraph) (u v : variable) :
  ~~ has (fun e => same_edge e (u, v, new_edge_key G u v)) (edge_keys G).
Proof.
  rewrite /new_edge_key.
  set used := [seq e.1.2 | e <- edges G & same_edge e.1 (u, v, e.1.2)].
  set k := seq.head _ _.
  have Hk : k \notin used.
    rewrite /k; case Hf: [seq k0 <- iota (size used) (size used).+1
                         | k0 \notin used] => [|k0 ks] /=.
      have Hsub : {subset iota (size used) (size used).+1 <= used}.
        move=> x Hx; apply/negPn/negP => Hn.
        have : x \in [seq k0 <- iota (size used) (size used).+1
                     | k0 \notin used] by rewrite mem_filter Hn.
        by rewrite Hf.
      have := uniq_leq_size (iota_uniq _ _) Hsub.
      by rewrite size_iota ltnn.
    have : k0 \in [seq k1 <- iota (size used) (size used).+1 | k1 \notin used].
      by rewrite Hf mem_head.
    by rewrite mem_filter => /andP [].
  apply/negP => /hasP [e /mapP [d Hd ->]] Hsame.
  have Hkey : d.1.2 = k.
    by move: Hsame; case: (d.1) => [[a b] k1] /= /andP [/eqP ->].
  move/negP: Hk; apply; apply/mapP; exists d; last by rewrite Hkey.
  by rewrite mem_filter Hd andbT Hkey.
Qed.

Lemma adds_chords_refl (G : MultiGraph) : adds_chords G G [::].
Proof. by split=> //; rewrite cats0. Qed.

Lemma add_chord_distinct (G : MultiGraph) (v0 : variable) (prev0 : half_edge)
    (vj : variable) (prevj : half_edge) :
  distinct_edges G -> distinct_edges (add_chord G v0 prev0 vj prevj).
Proof.
  rewrite /distinct_edges /edge_keys /add_chord /= map_rcons pairwise_rcons.
  move=> ->; rewrite andbT /=.
  have := new_edge_key_fresh G v0 vj.
  by rewrite -all_predC.
Qed.

Lemma adjacent_add_chord (G : MultiGraph) (v0 : variable) (prev0 : half_edge)
    (vj : variable) (prevj : half_edge) (u w : variable) :
  adjacent (add_chord G v0 prev0 vj prevj) u w
  = adjacent G u w
    || ((v0 == u) && (vj == w)) || ((v0 == w) && (vj == u)).
Proof.
  by rewrite /adjacent /edge_keys /add_chord /= map_rcons has_rcons /= orbC orbA.
Qed.

Lemma add_chord_simple (G : MultiGraph) (v0 : variable) (prev0 : half_edge)
    (vj : variable) (prevj : half_edge) :
  v0 != vj -> ~~ adjacent G v0 vj ->
  simple G -> simple (add_chord G v0 prev0 vj prevj).
Proof.
  move=> Hne Hadj /andP [Hloop Hpair].
  rewrite /simple /loop_free /edge_keys /add_chord /= map_rcons.
  rewrite all_rcons pairwise_rcons /= Hne Hpair andbT /=.
  apply/andP; split; first exact: Hloop.
  by move: Hadj; rewrite /adjacent -all_predC.
Qed.

Lemma add_chord_adds (G G' : MultiGraph) (cs : seq (edge_key * edge_data))
    (v0 : variable) (prev0 : half_edge) (vj : variable) (prevj : half_edge) :
  v0 != vj -> ~~ adjacent G' v0 vj ->
  adds_chords G G' cs ->
  exists c, adds_chords G (add_chord G' v0 prev0 vj prevj) (rcons cs c).
Proof.
  move=> Hne Hadj [Hl He Hc Hd Hs].
  exists ((v0, vj, new_edge_key G' v0 vj), EdgeData (Some 0%Re) None None).
  split.
  - rewrite -Hl /labels /add_chord /= -map_comp; apply: eq_map => d /=.
    by rewrite /insert_rotation; case: ifP; case: ifP.
  - by rewrite /add_chord /= He rcons_cat.
  - by rewrite all_rcons Hc andbT /= eqxx.
  - by move=> /Hd; exact: add_chord_distinct.
  - by move=> /Hs; exact: add_chord_simple.
Qed.

(** Chords from [v0] to vertices that are different from [v0] and from
    each other, none of them a neighbour of [v0]. *)
Lemma fold_chords_adds (G : MultiGraph) (v0 : variable) (prev0 : half_edge)
    (vert : nat -> variable) (prev : nat -> half_edge) (js : seq nat)
    (G' : MultiGraph) (cs : seq (edge_key * edge_data)) :
  adds_chords G G' cs ->
  uniq [seq vert j | j <- js] ->
  all (fun j => (vert j != v0) && ~~ adjacent G' v0 (vert j)) js ->
  exists cs',
    adds_chords G
      (foldl (fun G1 j => add_chord G1 v0 prev0 (vert j) (prev j)) G' js)
      (cs ++ cs').
Proof.
  elim: js G' cs => [|j js IH] G' cs Hadd /=.
    by exists [::]; rewrite cats0.
  case/andP => Hj Huniq /andP [/andP [Hne Hadj] Hall].
  have Hne' : v0 != vert j by rewrite eq_sym.
  have [c Hc] := add_chord_adds prev0 (prev j) Hne' Hadj Hadd.
  have [|cs' Hcs'] := IH _ _ Hc Huniq.
    apply/allP => i Hi; have /andP [Hi0 Hiadj] := allP Hall i Hi.
    rewrite Hi0 adjacent_add_chord (negbTE Hiadj) eqxx /=.
    have Hij : vert j != vert i.
      by apply: contraNneq Hj => ->; apply/mapP; exists i.
    by rewrite (negbTE Hij) /= eq_sym (negbTE Hi0).
  by exists (c :: cs'); rewrite -cat_rcons.
Qed.

Lemma chord_cornersP (G : MultiGraph) (f : seq dart) (d0 : dart) (j : nat) :
  j \in chord_corners G f ->
  let vs := [seq tail_of d | d <- f] in
  [/\ (j < size f)%nat,
      tail_of (nth d0 f j) != tail_of (seq.head (0, 0, 0)%nat f),
      ~~ adjacent G (tail_of (seq.head (0, 0, 0)%nat f)) (tail_of (nth d0 f j))
    & seq.index (tail_of (nth d0 f j)) vs = j].
Proof.
  rewrite /chord_corners mem_filter mem_iota /= add0n.
  case/andP => Hcond Hj.
  have Hv : nth 0%nat [seq tail_of d | d <- f] j = tail_of (nth d0 f j).
    exact: nth_map.
  have H0 : seq.head 0%nat [seq tail_of d | d <- f]
            = tail_of (seq.head (0, 0, 0)%nat f) by case: (f).
  move: Hcond; rewrite Hv H0 => /and3P [H1 H2 /eqP H3].
  by split.
Qed.

Lemma fan_adds (G G' : MultiGraph) (cs : seq (edge_key * edge_data))
    (f : seq dart) :
  adds_chords G G' cs ->
  exists cs', adds_chords G (fan G' f) (cs ++ cs').
Proof.
  rewrite /fan; case: ifP => [Hf|Hf] Hadd; last first.
    by exists [::]; rewrite cats0.
  set f' := fan_start G' f.
  set d0 := seq.head _ f'.
  apply: (@fold_chords_adds G (tail_of d0) _
            (fun j => tail_of (nth d0 f' j))
            (fun j => (tail_of (nth d0 f' j.-1), key_of (nth d0 f' j.-1)))
            (chord_corners G' f') G' cs Hadd).
  - have Hinj : {in chord_corners G' f' &,
                  injective (fun j => tail_of (nth d0 f' j))}.
      move=> i j Hi Hj /= Hij.
      have [_ _ _ <-] := chord_cornersP d0 Hi.
      by have [_ _ _ <-] := chord_cornersP d0 Hj; rewrite Hij.
    by rewrite (map_inj_in_uniq Hinj); apply: filter_uniq; exact: iota_uniq.
  - apply/allP => j Hj.
    by have [_ -> ->] := chord_cornersP d0 Hj.
Qed.

Lemma triangulate_pass_adds (fs : seq (seq dart)) (G G' : MultiGraph)
    (cs : seq (edge_key * edge_data)) :
  adds_chords G G' cs ->
  exists cs', adds_chords G (foldl fan G' fs) (cs ++ cs').
Proof.
  elim: fs G' cs => [|f fs IH] G' cs Hadd /=.
    by exists [::]; rewrite cats0.
  have [c1 Hc1] := fan_adds f Hadd.
  have [c2 Hc2] := IH _ _ Hc1.
  by exists (c1 ++ c2); rewrite catA.
Qed.

Lemma triangulate_passes_adds (fuel : nat) (G G' : MultiGraph)
    (cs : seq (edge_key * edge_data)) :
  adds_chords G G' cs ->
  exists cs', adds_chords G (triangulate_passes fuel G') (cs ++ cs').
Proof.
  elim: fuel G' cs => [|fuel IH] G' cs Hadd /=.
    by exists [::]; rewrite cats0.
  case: ifP => _; first by exists [::]; rewrite cats0.
  have [c1 Hc1] := triangulate_pass_adds (faces G') Hadd.
  have [c2 Hc2] := IH _ _ Hc1.
  by exists (c1 ++ c2); rewrite catA.
Qed.

Lemma plane_triangulate_adds (G : MultiGraph) :
  exists cs, adds_chords G (plane_triangulate G) cs.
Proof.
  exact: (triangulate_passes_adds _ (adds_chords_refl G)).
Qed.

(** X17.  The triangulator only adds chords, and neither a loop nor a
    second edge between two vertices.  The triangulated graph has the
    vertices of the graph it was given, in the same order; its edges are
    the edges it was given, with their attributes, followed by the chords;
    every chord counts as weight 0; and where the graph is simple (no loop,
    no two edges between the same two vertices), so is the triangulated
    graph: every chord joins two different vertices that no edge joined. *)
Theorem plane_triangulate_chords (G : MultiGraph) :
  exists cs : seq (edge_key * edge_data),
    [/\ labels (plane_triangulate G) = labels G,
        edges (plane_triangulate G) = edges G ++ cs,
        all (fun c : edge_key * edge_data =>
               odflt 0%Re (weight c.2) == 0%Re) cs
      & simple G -> simple (plane_triangulate G)].
Proof.
  have [cs [Hl He Hw _ Hs]] := plane_triangulate_adds G.
  exists cs; split=> //.
  by apply: sub_all Hw => c /eqP ->.
Qed.

Lemma foldl_Rplus_zero (x : R) (cs : seq (edge_key * edge_data)) :
  all (fun c : edge_key * edge_data => weight c.2 == Some 0%Re) cs ->
  foldl Rplus x [seq odflt 0%Re (weight d.2) | d <- cs] = x.
Proof.
  elim: cs x => [|c cs IH] x //= /andP [/eqP -> Hcs].
  by rewrite IH //= Rplus_0_r.
Qed.

(** X18.  Triangulating changes no total.  Where no two edges of the graph
    share a key between the same two vertices, none do after the
    triangulation (every chord takes a fresh key), and the weights of the
    edges of the triangulated graph add up to what the weights of the edges
    of the graph add up to: the sum on line 45 of partition.py, taken over
    the triangulated graph, is the sum over the edges of the model. *)
Theorem plane_triangulate_weights (G : MultiGraph) :
  distinct_edges G ->
  distinct_edges (plane_triangulate G)
  /\ sum_weights (plane_triangulate G) = sum_weights G.
Proof.
  move=> Hd.
  have [cs [Hl He Hw Hk _]] := plane_triangulate_adds G.
  have HdT := Hk Hd; split=> //.
  rewrite (sum_weights_edges HdT) (sum_weights_edges Hd).
  by rewrite [edges _]He map_cat foldl_cat foldl_Rplus_zero.
Qed.

(** ** The triangulator stops when no chord can be added *)

Lemma rotations_within (X : seq variable) (ds : seq (variable * node_data)) :
  {subset flatten [seq [seq h.1 | h <- odflt [::] (rotation d.2)] | d <- ds]
   <= X} ->
  all (fun d : variable * node_data =>
         all (fun h : half_edge => h.1 \in X) (odflt [::] (rotation d.2))) ds.
Proof.
  elim: ds => [|d ds IH] //= Hsub; apply/andP; split.
  - apply/allP => h Hh; apply: Hsub.
    by rewrite mem_cat; apply/orP; left; apply/mapP; exists h.
  - by apply: IH => x Hx; apply: Hsub; rewrite mem_cat Hx orbT.
Qed.

Lemma named_within (G : MultiGraph) : names_within (named G) G.
Proof.
  rewrite /names_within /named; apply/andP; split.
  - apply/allP => e He.
    have Hin : forall x, x \in [:: e.1.1; e.1.2] ->
        x \in undup (flatten [seq [:: e0.1.1; e0.1.2] | e0 <- edge_keys G]
                     ++ flatten [seq [seq h.1 | h <- odflt [::] (rotation d.2)]
                                | d <- nodes G]).
      move=> x Hx; rewrite mem_undup mem_cat; apply/orP; left.
      by apply/flattenP; exists [:: e.1.1; e.1.2] => //; apply/mapP; exists e.
    by rewrite !Hin // !inE eqxx ?orbT.
  - by apply: rotations_within => x Hx; rewrite mem_undup mem_cat Hx orbT.
Qed.

Lemma rotation_of_within (D : seq variable) (G : MultiGraph) (v : variable) :
  names_within D G -> all (fun h : half_edge => h.1 \in D) (rotation_of G v).
Proof.
  case/andP => _; rewrite /rotation_of.
  elim: (nodes G) => [|d ds IH] //= /andP [Hd Hds].
  by case: ifP => _ //=; exact: IH.
Qed.

Lemma next_dart_within (D : seq variable) (G : MultiGraph) (d : dart) :
  names_within D G -> ends_within D d -> ends_within D (next_dart G d).
Proof.
  move=> HG /andP [Ht Hh]; rewrite /ends_within /next_dart /tail_of /head_of /=.
  rewrite -/(head_of d) Hh /=.
  set r := rotation_of G _; set back := (_, _); set i := (_ %% _)%nat.
  have Hr : all (fun h : half_edge => h.1 \in D) r by exact: rotation_of_within.
  case: (ltnP i (size r)) => Hi; first exact: (allP Hr _ (mem_nth _ Hi)).
  by rewrite nth_default.
Qed.

Lemma trace_within (D : seq variable) (G : MultiGraph) (d0 d : dart)
    (fuel : nat) :
  names_within D G -> ends_within D d ->
  all (ends_within D) (trace G d0 d fuel).
Proof.
  move=> HG; elim: fuel d => [|fuel IH] d Hd //=.
  case: ifP => _ //=; rewrite Hd /=.
  by apply: IH; exact: next_dart_within.
Qed.

Lemma darts_within (D : seq variable) (G : MultiGraph) :
  names_within D G -> all (ends_within D) (darts G).
Proof.
  case/andP => He _; rewrite /darts /edge_keys in He *.
  elim: (edges G) He => [|e es IH] //= /andP [/andP [H1 H2] Hes].
  by rewrite /ends_within /rev_dart /tail_of /head_of /= H1 H2 /=; exact: IH.
Qed.

Lemma faces_within (D : seq variable) (G : MultiGraph) :
  names_within D G -> all (all (ends_within D)) (faces G).
Proof.
  move=> HG; rewrite /faces.
  have := darts_within HG.
  have : all (all (ends_within D)) [::] by [].
  elim: (darts G) [::] => [|d ds IH] fs Hfs //= /andP [Hd Hds].
  apply: IH => //; case: ifP => _ //.
  rewrite all_rcons Hfs andbT /face_of /= Hd /=.
  by apply: trace_within => //; exact: next_dart_within.
Qed.

Lemma all_insert_after (P : pred half_edge) (x y : half_edge)
    (r : seq half_edge) :
  all P (insert_after x y r) = P y && all P r.
Proof.
  rewrite /insert_after all_cat /= andbCA; congr (_ && _).
  by rewrite -all_cat cat_take_drop.
Qed.

Lemma add_chord_within (D : seq variable) (G : MultiGraph) (v0 : variable)
    (prev0 : half_edge) (vj : variable) (prevj : half_edge) :
  v0 \in D -> vj \in D ->
  names_within D G -> names_within D (add_chord G v0 prev0 vj prevj).
Proof.
  move=> H0 Hj /andP [He Hn]; rewrite /names_within /add_chord /edge_keys /=.
  rewrite map_rcons all_rcons /= H0 Hj He /= all_map.
  apply: sub_all Hn => d Hd /=.
  rewrite /insert_rotation /=.
  case: ifP => _ /=; case: ifP => _ //=;
    by rewrite ?all_insert_after /= ?H0 ?Hj /= ?all_insert_after /= ?H0 ?Hj.
Qed.

Lemma count_lt (T : eqType) (p q : pred T) (s : seq T) (x : T) :
  x \in s -> ~~ p x -> q x -> (forall y, p y -> q y) ->
  (count p s < count q s)%nat.
Proof.
  move=> Hx Hp Hq Hpq.
  have Hle t : (count p t <= count q t)%nat by exact: sub_count.
  elim: s Hx => [|y s IH] //=; rewrite in_cons => /orP [/eqP <-|Hs].
    by rewrite (negbTE Hp) Hq add0n add1n ltnS.
  have {}IH := IH Hs.
  case Hpy: (p y); first by rewrite (Hpq _ Hpy) !add1n ltnS.
  by rewrite add0n; apply: (leq_trans IH); exact: leq_addl.
Qed.

Lemma adjacent_pairs_add_chord (D : seq variable) (G : MultiGraph)
    (v0 : variable) (prev0 : half_edge) (vj : variable) (prevj : half_edge) :
  v0 \in D -> vj \in D -> ~~ adjacent G v0 vj ->
  (adjacent_pairs D G < adjacent_pairs D (add_chord G v0 prev0 vj prevj))%nat.
Proof.
  move=> H0 Hj Hadj; rewrite /adjacent_pairs.
  apply: (@count_lt _ _ _ _ (v0, vj)) => //=.
  - exact: allpairs_f.
  - by rewrite adjacent_add_chord !eqxx /= orbT.
  - by move=> p Hp; rewrite adjacent_add_chord Hp.
Qed.

Lemma grows_refl (D : seq variable) (G : MultiGraph) :
  names_within D G -> grows D G G.
Proof. by move=> HG; split=> //; rewrite addnC. Qed.

Lemma grows_trans (D : seq variable) (G1 G2 G3 : MultiGraph) :
  grows D G1 G2 -> grows D G2 G3 -> grows D G1 G3.
Proof.
  case=> _ H12 A12 E12 [HG3 H23 A23 E23]; split=> //.
  - exact: leq_trans H12 H23.
  - move/leP: A12 => A12; move/leP: A23 => A23; apply/leP.
    by rewrite -?plusE in A12 A23 *; lia.
  - move=> H13.
    have H2 : size (edges G2) = size (edges G1).
      by apply/eqP; rewrite eqn_leq H12 -H13 H23.
    by rewrite -(E12 H2); apply: E23; rewrite H13 H2.
Qed.

Lemma add_chord_grows (D : seq variable) (G : MultiGraph) (v0 : variable)
    (prev0 : half_edge) (vj : variable) (prevj : half_edge) :
  v0 \in D -> vj \in D -> ~~ adjacent G v0 vj -> names_within D G ->
  grows D G (add_chord G v0 prev0 vj prevj).
Proof.
  move=> H0 Hj Hadj HG.
  have Hlt := adjacent_pairs_add_chord prev0 prevj H0 Hj Hadj.
  have Hsz : size (edges (add_chord G v0 prev0 vj prevj))
             = (size (edges G)).+1 by rewrite /add_chord /= size_rcons.
  split; first exact: add_chord_within.
  - by rewrite Hsz.
  - rewrite Hsz; move/ltP: Hlt => Hlt; apply/leP.
    by rewrite -?plusE in Hlt *; lia.
  - by rewrite Hsz => /esym /n_Sn.
Qed.

Lemma fold_chords_grows (D : seq variable) (v0 : variable) (prev0 : half_edge)
    (vert : nat -> variable) (prev : nat -> half_edge) (js : seq nat)
    (G' : MultiGraph) :
  names_within D G' -> v0 \in D ->
  all (fun j => vert j \in D) js ->
  uniq [seq vert j | j <- js] ->
  all (fun j => (vert j != v0) && ~~ adjacent G' v0 (vert j)) js ->
  grows D G'
    (foldl (fun G1 j => add_chord G1 v0 prev0 (vert j) (prev j)) G' js)
  /\ (js != [::] ->
      (size (edges G')
       < size (edges (foldl (fun G1 j => add_chord G1 v0 prev0 (vert j) (prev j))
                            G' js)))%nat).
Proof.
  move=> HG H0; elim: js G' HG => [|j js IH] G' HG /=.
    by move=> _ _ _; split=> //; exact: grows_refl.
  case/andP => HjD HD /andP [Hj Huniq] /andP [/andP [Hne Hadj] Hall].
  have Hg1 := add_chord_grows prev0 (prev j) H0 HjD Hadj HG.
  have HG1 : names_within D (add_chord G' v0 prev0 (vert j) (prev j)).
    by case: Hg1.
  have Hall1 : all (fun i => (vert i != v0)
                   && ~~ adjacent (add_chord G' v0 prev0 (vert j) (prev j))
                                  v0 (vert i)) js.
    apply/allP => i Hi; have /andP [Hi0 Hiadj] := allP Hall i Hi.
    rewrite Hi0 adjacent_add_chord (negbTE Hiadj) eqxx /=.
    have Hij : vert j != vert i.
      by apply: contraNneq Hj => ->; apply/mapP; exists i.
    by rewrite (negbTE Hij) /= eq_sym (negbTE Hi0).
  have [Hg2 _] := IH _ HG1 HD Huniq Hall1.
  split; first exact: grows_trans Hg1 Hg2.
  move=> _; have [_ Hs2 _ _] := Hg2; apply: leq_trans Hs2.
  by rewrite /add_chord /= size_rcons.
Qed.

Lemma fan_grows (D : seq variable) (G' : MultiGraph) (f : seq dart) :
  names_within D G' -> all (ends_within D) f ->
  grows D G' (fan G' f)
  /\ ((3 < size f)%nat -> fan G' f = G' ->
      chord_corners G' (fan_start G' f) = [::]).
Proof.
  move=> HG Hf; rewrite /fan; case: ifP => H3; last first.
    by split=> //; exact: grows_refl.
  set f' := fan_start G' f.
  set d0 := seq.head _ f'.
  have Hf' : all (ends_within D) f'.
    by rewrite /f' /fan_start (eq_all_r (mem_rot _ f)).
  have Hsz : size f' = size f by rewrite /f' /fan_start size_rot.
  have Hnth j : (j < size f')%nat -> tail_of (nth d0 f' j) \in D.
    by move=> Hj; have /andP [] := allP Hf' _ (mem_nth d0 Hj).
  have H0 : tail_of d0 \in D.
    have -> : d0 = nth d0 f' 0 by rewrite /d0; case: (f').
    by apply: Hnth; rewrite Hsz; apply: leq_trans H3.
  have Hin : all (fun j => tail_of (nth d0 f' j) \in D) (chord_corners G' f').
    by apply/allP => j Hj; have [Hlt _ _ _] := chord_cornersP d0 Hj; exact: Hnth.
  have Hinj : {in chord_corners G' f' &,
                injective (fun j => tail_of (nth d0 f' j))}.
    move=> i j Hi Hj /= Hij.
    have [_ _ _ <-] := chord_cornersP d0 Hi.
    by have [_ _ _ <-] := chord_cornersP d0 Hj; rewrite Hij.
  have Huniq : uniq [seq tail_of (nth d0 f' j) | j <- chord_corners G' f'].
    by rewrite (map_inj_in_uniq Hinj); apply: filter_uniq; exact: iota_uniq.
  have Hcond : all (fun j => (tail_of (nth d0 f' j) != tail_of d0)
                      && ~~ adjacent G' (tail_of d0) (tail_of (nth d0 f' j)))
                   (chord_corners G' f').
    by apply/allP => j Hj; have [_ -> ->] := chord_cornersP d0 Hj.
  have [Hg Hlt] :=
    @fold_chords_grows D (tail_of d0)
      (tail_of (last d0 f'), key_of (last d0 f'))
      (fun j => tail_of (nth d0 f' j))
      (fun j => (tail_of (nth d0 f' j.-1), key_of (nth d0 f' j.-1)))
      (chord_corners G' f') G' HG H0 Hin Huniq Hcond.
  split; first exact: Hg.
  move=> _ Heq; apply/eqP/negPn/negP => Hne.
  by have := Hlt Hne; rewrite [X in (_ < size (edges X))%nat]Heq ltnn.
Qed.

Lemma foldl_fan_grows (D : seq variable) (fs : seq (seq dart))
    (G' : MultiGraph) :
  names_within D G' -> all (all (ends_within D)) fs ->
  grows D G' (foldl fan G' fs).
Proof.
  elim: fs G' => [|f fs IH] G' HG /=; first by move=> _; exact: grows_refl.
  case/andP => Hf Hfs.
  have [Hg1 _] := fan_grows HG Hf.
  have HG1 : names_within D (fan G' f) by case: Hg1.
  exact: grows_trans Hg1 (IH _ HG1 Hfs).
Qed.

Lemma foldl_fan_fixed (D : seq variable) (fs : seq (seq dart))
    (G' : MultiGraph) :
  names_within D G' -> all (all (ends_within D)) fs ->
  foldl fan G' fs = G' ->
  forall f, f \in fs -> fan G' f = G'.
Proof.
  elim: fs => [|f fs IH] //= HG /andP [Hf Hfs] Hfix.
  have [Hg1 _] := fan_grows HG Hf.
  have HG1 : names_within D (fan G' f) by case: Hg1.
  have Hg2 := foldl_fan_grows HG1 Hfs.
  have H1 : fan G' f = G'.
    case: Hg1 => _ H01 _; apply.
    case: Hg2 => _ H12 _ _; apply/eqP; rewrite eqn_leq H01 andbT.
    by move: H12; rewrite Hfix.
  move=> g; rewrite in_cons => /orP [/eqP -> //|Hg].
  by apply: IH => //; rewrite -{2}Hfix H1.
Qed.

Lemma adjacent_pairs_bound (D : seq variable) (G : MultiGraph) :
  (adjacent_pairs D G <= size D * size D)%nat.
Proof.
  by rewrite /adjacent_pairs -(size_allpairs pair D D); exact: count_size.
Qed.

Lemma triangulate_passes_fixed (D : seq variable) (fuel : nat)
    (G : MultiGraph) :
  names_within D G ->
  (size D * size D < fuel + adjacent_pairs D G)%nat ->
  triangulate_pass (triangulate_passes fuel G) = triangulate_passes fuel G.
Proof.
  elim: fuel G => [|fuel IH] G HG Hlt.
    by move: Hlt; rewrite add0n ltnNge adjacent_pairs_bound.
  have Hg := foldl_fan_grows HG (faces_within HG).
  rewrite -/(triangulate_pass G) in Hg.
  rewrite /=; case: ifP => [/eqP Heq|Hneq].
    by case: Hg => _ _ _; apply.
  case: Hg => HG1 Hle HA _; apply: IH => //.
  have Hlt' : (size (edges G) < size (edges (triangulate_pass G)))%nat.
    by rewrite ltn_neqAle Hle andbT eq_sym Hneq.
  move/ltP: Hlt => Hlt; move/leP: HA => HA; move/ltP: Hlt' => Hlt'.
  by apply/ltP; rewrite -?plusE in Hlt HA Hlt' *; lia.
Qed.

Lemma plane_triangulate_fixed (G : MultiGraph) :
  triangulate_pass (plane_triangulate G) = plane_triangulate G.
Proof.
  apply: (triangulate_passes_fixed (named_within G)).
  by rewrite addSn ltnS leq_addr.
Qed.

Lemma fixed_saturated (G : MultiGraph) :
  triangulate_pass G = G -> saturated G.
Proof.
  move=> Hfix; apply/allP => f Hf; apply/implyP => H3.
  have HG := named_within G.
  have Hfs := faces_within HG.
  have Hfan : fan G f = G by exact: (foldl_fan_fixed HG Hfs Hfix).
  have [_ Hc] := fan_grows HG (allP Hfs _ Hf).
  have {Hc} Hstart := Hc H3 Hfan.
  have Hrot i : (i < size f)%nat -> chord_corners G (rot i f) = [::].
    move=> Hi; move: Hstart; rewrite /fan_start.
    set p := fun i0 => chord_corners G (rot i0 f) != [::].
    case Hhas: (has p (iota 0 (size f))).
      have := nth_find 0%nat Hhas; rewrite -/p /p => Hne Hempty.
      move: Hhas; rewrite has_find size_iota => Hlt.
      by move: Hne; rewrite nth_iota // add0n Hempty.
    move=> _; move/hasPn: Hhas => /(_ i); rewrite mem_iota /= add0n => /(_ Hi).
    by rewrite /p negbK => /eqP.
  apply/allP => u /mapP [du Hdu ->]; apply/allP => w /mapP [dw Hdw ->].
  case Huw: (tail_of du == tail_of dw) => //=.
  set i := seq.index du f.
  have Hi : (i < size f)%nat by rewrite index_mem.
  set vs := [seq tail_of d | d <- rot i f].
  have Hhead : seq.head 0%nat vs = tail_of du.
    rewrite /vs /rot (drop_nth du Hi) /= nth_index //.
  have Hw : tail_of dw \in vs by apply: map_f; rewrite mem_rot.
  set j := seq.index (tail_of dw) vs.
  have Hj : (j < size (rot i f))%nat by rewrite -(size_map tail_of) index_mem.
  have : j \notin chord_corners G (rot i f) by rewrite (Hrot i Hi).
  rewrite /chord_corners mem_filter mem_iota /= add0n Hj andbT -/vs Hhead.
  rewrite nth_index // -/j eqxx andbT eq_sym Huw /=.
  by rewrite negbK.
Qed.

(** X20.  The triangulator stops only when no chord can be added.  In the
    triangulated graph any two different vertices on the boundary of a face
    of more than three darts are joined by an edge; a walk over its faces
    adds nothing; and triangulating it again returns it as it is. *)
Theorem plane_triangulate_saturated (G : MultiGraph) :
  [/\ saturated (plane_triangulate G),
      triangulate_pass (plane_triangulate G) = plane_triangulate G
    & plane_triangulate (plane_triangulate G) = plane_triangulate G].
Proof.
  have Hfix := plane_triangulate_fixed G.
  split=> //; first exact: fixed_saturated.
  by rewrite {1}/plane_triangulate /= Hfix eqxx.
Qed.

(** ** The edges of the final graph *)

Lemma with_orientationE (env : imports) (T : MultiGraph) :
  with_orientation env T
  = set_edge_attributes_oriented T (orientation_of env T).
Proof. by case: env. Qed.

Lemma zip_mapl (A B C : Type) (f : A -> C) (s : seq A) (t : seq B) :
  zip [seq f x | x <- s] t = [seq (f x.1, x.2) | x <- zip s t].
Proof. by elim: s t => [|x s IH] [|y t] //=; rewrite IH. Qed.

(** X19.  Lines 35-40 together.  When the triangulated graph has pairwise
    different edges and the orientation dictionary has one flag for every
    edge, in the order of [G.edges], the final graph has the edges of the
    triangulated graph, in the same order and with the same weights, each
    with its own flag under ['oriented'] and its own position under
    ['index']. *)
Theorem final_graph_edges (env : imports) (G0 : MultiGraph) (pos : posmap) :
  let T := triangulated env G0 pos in
  distinct_edges T ->
  [seq v.1 | v <- orientation_of env T] = edge_keys T ->
  edges (final_graph env G0 pos)
  = [seq (x.1.1.1, EdgeData (weight x.1.1.2) (Some x.1.2.2) (Some x.2))
    | x <- zip (zip (edges T) (orientation_of env T))
               (iota 0 (size (edges T)))].
Proof.
  move=> T Hd Hvs; rewrite /final_graph /with_index -/T with_orientationE.
  set W := set_edge_attributes_oriented T _.
  have HW : edges W
            = [seq (x.1.1, EdgeData (weight x.1.2) (Some x.2.2) (index x.1.2))
              | x <- zip (edges T) (orientation_of env T)].
    rewrite /W set_edge_attributes_oriented_edges.
    apply: (@oriented_edges_from (edges T) [::] _) => //.
    by elim: (edges T).
  have [_ Hk Hs] := set_edge_attributes_oriented_keeps T (orientation_of env T).
  have HkW : edge_keys W = edge_keys T.
    have := congr1 (map (fun x : edge_key * option R * option nat => x.1.1)) Hk.
    by rewrite -!map_comp.
  have HdW : distinct_edges W by rewrite /distinct_edges HkW.
  rewrite set_edge_attributes_index_edges /enumerate_edges.
  have Hall : all (fun d : edge_key * edge_data =>
                     all (fun p : edge_key * nat => ~~ same_edge d.1 p.1) [::])
                  (edges W) by elim: (edges W).
  rewrite (@index_edges_from (edges W) [::] 0 HdW Hall).
  by rewrite [size (edges W)]Hs HW zip_mapl -map_comp.
Qed.

(** ** The further properties on examples *)

(** [log_partition_bqm_effect] on the triangle. *)
Lemma log_partition_bqm_effect_witness :
  (log_partition_bqm example_imports 0 1 example_state).2
  = PyState (rcons (heap example_state)
               (ObjGraph (final_graph example_imports
                            (graph_of_couplings bqm_triangle).1 pos_triangle)))
            [:: Stage_bqm_to_multigraph; Stage_rotation_from_coordinates;
                Stage_plane_triangulate; Stage_odd_edge_orientation;
                Stage_kasteleyn; Stage_lu].
Proof.
  exact: (@log_partition_bqm_effect example_imports example_state 0 1
            bqm_triangle pos_triangle erefl erefl erefl).
Defined.

(** [log_partition_bqm_zero_pivot] on the triangle, with the zero matrix
    of order three in the place of its Kasteleyn matrix. *)
Lemma log_partition_bqm_zero_pivot_witness :
  (log_partition_bqm zero_imports 0 1 example_state).1 = Ok NegInf
  \/ (log_partition_bqm zero_imports 0 1 example_state).1 = Ok NaN.
Proof.
  have Hlog : log_of_zero zero_imports by rewrite /log_of_zero /= eqxx.
  have Hsum : sum_with_neginf zero_imports.
    by move=> s Hs; apply: exact_sum_neginf; right.
  apply: (@log_partition_bqm_zero_pivot zero_imports example_state 0 1
            bqm_triangle pos_triangle 3 (0 : 'M[R]_3) Hlog Hsum
            erefl erefl erefl erefl).
  exists ord0.
  have -> : lu zero_imports (0 : 'M[R]_3)
            = (map_mx Fin 1%:M, map_mx Fin (0 : 'M[R]_3)).
    by apply: lu_exact_upper => i j _; rewrite mxE.
  by rewrite /= !mxE.
Defined.

(** [edge_index_scheme] on the square. *)
Lemma edge_index_scheme_witness :
  edges (set_edge_attributes_index square (enumerate_edges square))
  = [seq (x.1.1, EdgeData (weight x.1.2) (oriented x.1.2) (Some x.2))
    | x <- zip (edges square) (iota 0 4)].
Proof. by apply: (@edge_index_scheme square); vm_compute. Defined.

(** [sum_weights_direct] on the square. *)
Lemma sum_weights_direct_witness :
  [seq get_weight square e | e <- edge_keys square]
  = [seq odflt 0%Re (weight d.2) | d <- edges square]
  /\ sum_weights square
     = foldl Rplus 0%Re [seq odflt 0%Re (weight d.2) | d <- edges square].
Proof. by apply: (@sum_weights_direct square); vm_compute. Defined.

(** [kasteleyn_entries] on the triangle, at row 0 and column 1. *)
Lemma kasteleyn_entries_witness :
  let i : 'I_(order triangle) := @Ordinal 3 0 isT in
  let j : 'I_(order triangle) := @Ordinal 3 1 isT in
  Kasteleyn.kasteleyn triangle i j = \sum_(e <- edges triangle) edge_entry e i j.
Proof. by move=> i j; apply: (@kasteleyn_entries triangle i j); vm_compute. Defined.

(** [odd_edge_orientation_counts] on the triangulated square. *)
Lemma odd_edge_orientation_counts_witness :
  let T := plane_triangulate square in
  [/\ [seq x.1 | x <- odd_edge_orientation T] = edge_keys T,
      sumn [seq agreeing (odd_edge_orientation T) f | f <- faces T]
      = size (edges T)
    & kasteleyn_parity T (odd_edge_orientation T) ->
      odd (size (edges T)) = odd (size (faces T))].
Proof.
  by move=> T; apply: (@odd_edge_orientation_counts T); vm_compute.
Defined.

(** [edge_orientation_flags] on the triangulated square and the flags of
    the orientation assigner. *)
Lemma edge_orientation_flags_witness :
  let T := plane_triangulate square in
  edges (set_edge_attributes_oriented T (odd_edge_orientation T))
  = [seq (x.1.1, EdgeData (weight x.1.2) (Some x.2.2) (index x.1.2))
    | x <- zip (edges T) (odd_edge_orientation T)].
Proof.
  by move=> T; apply: (@edge_orientation_flags T (odd_edge_orientation T));
     vm_compute.
Defined.

(** [plane_triangulate_weights] on the square. *)
Lemma plane_triangulate_weights_witness :
  distinct_edges (plane_triangulate square)
  /\ sum_weights (plane_triangulate square) = sum_weights square.
Proof. by apply: (@plane_triangulate_weights square); vm_compute. Defined.

(** [final_graph_edges] on the triangle. *)
Lemma final_graph_edges_witness :
  let T := triangulated example_imports (graph_of_couplings bqm_triangle).1
             pos_triangle in
  edges (final_graph example_imports (graph_of_couplings bqm_triangle).1
           pos_triangle)
  = [seq (x.1.1.1, EdgeData (weight x.1.1.2) (Some x.1.2.2) (Some x.2))
    | x <- zip (zip (edges T) (orientation_of example_imports T))
               (iota 0 (size (edges T)))].
Proof.
  by apply: (@final_graph_edges example_imports
               (graph_of_couplings bqm_triangle).1 pos_triangle); vm_compute.
Defined.
